(** * Rendering and assembly engine of the animation generator

    A shallow embedding of [api/production/orchestrator.py] (class
    [BibleOrchestrator]): the scene renderer [render_scene], the chapter
    merger [merge_clips], the end-card compositor [_apply_universal_cta]
    and the intro auto-assembler [assemble_intro], together with the
    path managers of [api/utils/paths.py] and the duration probe of
    [api/production/validators.py].

    Python floats are the kernel's binary64 floats, Python ints are [Z],
    paths are strings, and the file system is a finite map from paths to
    files.  The external transcoding engine (ffmpeg) is a parameter. *)

From Stdlib Require Import ZArith Lia.
From Stdlib Require Import Floats.
From stdpp Require Import base strings gmap list sorting pretty.

Set Warnings "-inexact-float".
Set Default Proof Using "Type".

Local Open Scope Z_scope.

(** ** Strings and paths *)

(** [s.endswith(suffix)]. *)
Definition ends_with (suffix s : string) : bool :=
  String.prefix (String.rev suffix) (String.rev s).

(** [os.path.join(a, b)] of posixpath: an absolute [b] discards [a]; a
    separator is inserted unless [a] is empty or already ends with one. *)
Definition os_path_join (a b : string) : string :=
  if String.prefix "/" b then b
  else if (String.eqb a "" || ends_with "/" a)%bool then a +:+ b
  else a +:+ "/" +:+ b.

Fixpoint zeros (n : nat) : string :=
  match n with
  | O => ""
  | S k => "0" +:+ zeros k
  end.

(** [f"{z:0{w}d}"]: decimal, zero-padded to width [w], the sign counted in
    the width. *)
Definition fmt_0d (w : nat) (z : Z) : string :=
  let digits := pretty (Z.abs_N z) in
  let sign := if z <? 0 then "-" else "" in
  sign +:+ zeros (w - String.length sign - String.length digits) +:+ digits.

Fixpoint replace_aux (old new s : string) (skip : nat) : string :=
  match s with
  | EmptyString => EmptyString
  | String c s' =>
      match skip with
      | S k => replace_aux old new s' k
      | O =>
          if String.prefix old s
          then new +:+ replace_aux old new s' (String.length old - 1)
          else String c (replace_aux old new s' 0)
      end
  end.

(** [s.replace(old, new)] for a non-empty [old]: every non-overlapping
    occurrence, left to right. *)
Definition str_replace (old new s : string) : string :=
  replace_aux old new s 0.

(** [s[:n]]. *)
Definition str_take (n : nat) (s : string) : string := String.substring 0 n s.

(** *** [api/utils/paths.py] *)

(** [PathManager] (legacy runs); [pm_root] is the absolute
    [data/runs/{run_id}] directory that [os.path.abspath] returned. *)
Record PathManager := {
  pm_run_id : string;
  pm_root : string;
}.

(** [ChapterPathManager]; [cpm_project_root] is the root of its
    [ProjectPathManager]. *)
Record ChapterPathManager := {
  cpm_project_root : string;
  chapter_idx : Z;
  chapter_slug : string;
}.

(** [ProjectPathManager.chapter_dir]. *)
Definition chapter_dir (project_root : string) (idx : Z) (slug : string) : string :=
  os_path_join project_root ("ch" +:+ fmt_0d 2 idx +:+ "_" +:+ slug).

Definition cpm_root (c : ChapterPathManager) : string :=
  chapter_dir (cpm_project_root c) (chapter_idx c) (chapter_slug c).

(** [self.pm] is either kind; [hasattr(self.pm, 'clips_shorts')] and the
    like hold exactly for [ChapterPM]. *)
Inductive path_manager :=
  | LegacyPM (p : PathManager)
  | ChapterPM (c : ChapterPathManager).

Definition root (pm : path_manager) : string :=
  match pm with
  | LegacyPM p => pm_root p
  | ChapterPM c => cpm_root c
  end.

Definition assets (pm : path_manager) : string := os_path_join (root pm) "assets".
Definition scenes_dir (pm : path_manager) : string := os_path_join (root pm) "scenes".
Definition clips (pm : path_manager) : string := os_path_join (root pm) "clips".
Definition rendered (pm : path_manager) : string := clips pm.
Definition scenes_shorts (c : ChapterPathManager) : string :=
  os_path_join (cpm_root c) "scenes_shorts".
Definition clips_shorts (c : ChapterPathManager) : string :=
  os_path_join (cpm_root c) "clips_shorts".

Definition get_audio_path (pm : path_manager) (scene_id : Z) : string :=
  os_path_join (assets pm) ("audio_" +:+ fmt_0d 3 scene_id +:+ ".mp3").

Definition get_vtt_path (pm : path_manager) (scene_id : Z) : string :=
  os_path_join (assets pm) ("audio_" +:+ fmt_0d 3 scene_id +:+ ".vtt").

(** [get_scene_video_path(scene_id, shorts)]; the legacy manager takes no
    [shorts] argument, and callers pass it only to a chapter manager. *)
Definition get_scene_video_path (pm : path_manager) (scene_id : Z) (shorts : bool) : string :=
  let base :=
    match pm with
    | LegacyPM _ => scenes_dir pm
    | ChapterPM c => if shorts then scenes_shorts c else scenes_dir pm
    end in
  os_path_join base ("scene_" +:+ fmt_0d 3 scene_id +:+ ".mp4").

Definition get_clip_path (pm : path_manager) (scene_id : Z) (shorts : bool) : string :=
  let base :=
    match pm with
    | LegacyPM _ => clips pm
    | ChapterPM c => if shorts then clips_shorts c else clips pm
    end in
  os_path_join base ("clip_" +:+ fmt_0d 3 scene_id +:+ ".mp4").

Definition final_dir (pm : path_manager) : string :=
  match pm with
  | LegacyPM p => os_path_join (pm_root p) "final"
  | ChapterPM c => cpm_root c
  end.

Definition chapter_video (c : ChapterPathManager) : string :=
  os_path_join (cpm_root c) "chapter.mp4".
Definition chapter_shorts_video (c : ChapterPathManager) : string :=
  os_path_join (cpm_root c) "chapter_shorts.mp4".

Definition final_video (pm : path_manager) : string :=
  match pm with
  | LegacyPM p => os_path_join (final_dir pm) ("master_" +:+ pm_run_id p +:+ ".mp4")
  | ChapterPM c => chapter_video c
  end.

Definition script_file (pm : path_manager) : string :=
  os_path_join (root pm) "script.json".

(** ** Files, the file system and the transcoding engine *)

(** A file on disk: its size in bytes ([os.path.getsize]), the duration
    ffprobe reports for it, and its lines when it is a text file. *)
Record file := {
  fsize : Z;
  fprobe : float;
  flines : list string;
}.

(** One constructor per ffmpeg invocation of the orchestrator, carrying the
    inputs, the parameters of the filter graph and the output path. *)
Inductive Cmd :=
  | CmdRenderVeo (video_path temp_path : string) (fps w h : Z)
  | CmdRenderMix (video_path audio_path temp_path : string) (fps w h : Z)
  | CmdRenderTTS (video_path audio_path temp_path : string) (fps w h : Z)
      (atempo : option float) (t : float)
  | CmdSubtitles (temp_path vtt_path output_path : string)
  | CmdNormalize (src dst : string)
  | CmdConcat (norm_concat output : string)
  | CmdCtaOverlay (video_path cta_path : string) (scale_w : Z) (y_pos : string)
      (start_time duration : float) (output_path : string).

(** The last argument of the command line. *)
Definition cmd_output (c : Cmd) : string :=
  match c with
  | CmdRenderVeo _ temp_path _ _ _ => temp_path
  | CmdRenderMix _ _ temp_path _ _ _ => temp_path
  | CmdRenderTTS _ _ temp_path _ _ _ _ _ => temp_path
  | CmdSubtitles _ _ output_path => output_path
  | CmdNormalize _ dst => dst
  | CmdConcat _ output => output
  | CmdCtaOverlay _ _ _ _ _ _ output_path => output_path
  end.

(** What one engine run did: its exit status, and the file it left at the
    output path (possibly a partial one on failure), if any. *)
Record EngineResult := {
  exit_ok : bool;
  written : option file;
}.

(** The state the orchestrator acts on: the disk, and the engine
    invocations made so far with what each one did, oldest first. *)
Record State := {
  fs : gmap string file;
  log : list (Cmd * EngineResult);
}.

Definition exists_ (p : string) (st : State) : bool :=
  bool_decide (is_Some (fs st !! p)).

(** [os.path.exists(p) and os.path.getsize(p) > n]. *)
Definition exists_larger (p : string) (n : Z) (st : State) : bool :=
  match fs st !! p with
  | Some f => n <? fsize f
  | None => false
  end.

(** [validators.get_duration]: the probed duration, [0.0] when the probe
    fails. *)
Definition get_duration (p : string) (st : State) : float :=
  match fs st !! p with
  | Some f => fprobe f
  | None => 0%float
  end.

Definition os_remove (p : string) (st : State) : State :=
  {| fs := delete p (fs st); log := log st |}.

(** [os.rename(a, b)]: [b] is replaced. *)
Definition os_rename (a b : string) (st : State) : State :=
  match fs st !! a with
  | Some f => {| fs := <[b := f]> (delete a (fs st)); log := log st |}
  | None => st
  end.

(** [shutil.move(a, b)] onto a file path; [None] when [a] is missing (the
    call raises). *)
Definition shutil_move (a b : string) (st : State) : option State :=
  match fs st !! a with
  | Some f => Some {| fs := <[b := f]> (delete a (fs st)); log := log st |}
  | None => None
  end.

(** [shutil.copy2(src, dst)]; [None] when the call raises: [src] and
    [dst] are the same file ([SameFileError]), or [src] is missing. *)
Definition shutil_copy2 (src dst : string) (st : State) : option State :=
  if String.eqb src dst then None
  else
    match fs st !! src with
    | Some f => Some {| fs := <[dst := f]> (fs st); log := log st |}
    | None => None
    end.

(** [shutil.rmtree(d, ignore_errors=True)]. *)
Definition shutil_rmtree (d : string) (st : State) : State :=
  {| fs := filter (fun kv => String.prefix (d +:+ "/") kv.1 = false) (fs st);
     log := log st |}.

(** [open(p, "w")] then one [f.write] per line. *)
Definition write_lines (p : string) (lines : list string) (st : State) : State :=
  {| fs := <[p := {| fsize := foldr (fun l n => Z.of_nat (String.length l) + n) 0 lines;
                     fprobe := 0%float; flines := lines |}]> (fs st);
     log := log st |}.

(** ** Scenes and the orchestrator *)

(** The [video_prompt] dict of a scene; an absent key reads as [""]. *)
Record VideoPrompt := {
  objects : string;
  action : string;
  atmosphere : string;
}.

(** A scene dict of [script.json].  [audio_priority] is [None] when the key
    is absent; [skip_tts] is the truth value of the legacy flag. *)
Record Scene := {
  id : Z;
  narration : string;
  characters : list string;
  video_prompt : VideoPrompt;
  audio_priority : option string;
  skip_tts : bool;
}.

(** The fields of [BibleOrchestrator] the engine reads. *)
Record Orchestrator := {
  pm : path_manager;
  scenes : list Scene;
  shorts_mode : bool;
}.

(** [(1080, 1920) if self.shorts_mode else (1920, 1080)]. *)
Definition target_size (shorts : bool) : Z * Z :=
  if shorts then (1080, 1920) else (1920, 1080).

(** The speed adjustment of the default TTS mode: the [atempo] factor of
    the audio filter, if any, and [duration_to_use]. *)
Definition speed_adjust (video_duration audio_duration : float) : option float * float :=
  if (PrimFloat.ltb 0 video_duration && PrimFloat.ltb video_duration audio_duration)%bool
  then
    let speed := (audio_duration / video_duration)%float in
    if PrimFloat.ltb 1.05 speed then (Some speed, video_duration)
    else (None, audio_duration)
  else (None, audio_duration).

Section Engine.

(** The media transcoding engine, a black box: submit a command, get an
    exit status and possibly a file at the command's output path. *)
Variable engine : Cmd -> gmap string file -> EngineResult.

(** [run_cmd(cmd)]: [True] iff the process exits with status zero (a
    process that cannot be started at all is outside this model). *)
Definition run_cmd (cmd : Cmd) (st : State) : bool * State :=
  let r := engine cmd (fs st) in
  (exit_ok r,
   {| fs := match written r with
            | Some f => <[cmd_output cmd := f]> (fs st)
            | None => fs st
            end;
      log := log st ++ [(cmd, r)] |}).

(** The subtitle step that ends each of the three branches of
    [render_scene] (the source repeats the block in each branch). *)
Definition burn_subtitles (temp_path vtt_path output_path : string) (st : State)
  : bool * State :=
  if exists_larger vtt_path 10 st then
    let '(success, st1) := run_cmd (CmdSubtitles temp_path vtt_path output_path) st in
    let st2 := if exists_ temp_path st1 then os_remove temp_path st1 else st1 in
    if negb success then (false, st2) else (true, st2)
  else
    let st1 := if exists_ temp_path st then os_rename temp_path output_path st else st in
    (true, st1).

(** The branch [audio_priority == "veo"]. *)
Definition render_veo (shorts : bool) (video_path vtt_path output_path : string)
  (st : State) : bool * State :=
  let fps := 24 in
  let '(target_w, target_h) := target_size shorts in
  let temp_path := str_replace ".mp4" "_temp.mp4" output_path in
  let '(ok, st1) := run_cmd (CmdRenderVeo video_path temp_path fps target_w target_h) st in
  if negb ok then (false, st1)
  else burn_subtitles temp_path vtt_path output_path st1.

(** The branch [audio_priority == "mix"] when the narration exists. *)
Definition render_mix (shorts : bool) (video_path audio_path vtt_path output_path : string)
  (st : State) : bool * State :=
  let fps := 24 in
  let '(target_w, target_h) := target_size shorts in
  let temp_path := str_replace ".mp4" "_temp.mp4" output_path in
  let '(ok, st1) :=
    run_cmd (CmdRenderMix video_path audio_path temp_path fps target_w target_h) st in
  if negb ok then (false, st1)
  else burn_subtitles temp_path vtt_path output_path st1.

(** The default TTS mode. *)
Definition render_tts (shorts : bool) (video_path audio_path vtt_path output_path : string)
  (st : State) : bool * State :=
  if negb (exists_ audio_path st) then (false, st)
  else
    let audio_duration := get_duration audio_path st in
    let video_duration := get_duration video_path st in
    if PrimFloat.leb audio_duration 0 then (false, st)
    else
      let fps := 24 in
      let '(target_w, target_h) := target_size shorts in
      let '(audio_filter, duration_to_use) := speed_adjust video_duration audio_duration in
      let temp_path := str_replace ".mp4" "_temp.mp4" output_path in
      let '(ok, st1) :=
        run_cmd (CmdRenderTTS video_path audio_path temp_path fps target_w target_h
                   audio_filter duration_to_use) st in
      if negb ok then (false, st1)
      else burn_subtitles temp_path vtt_path output_path st1.

(** [scene_data]: the first scene of [self.scenes] with this id. *)
Definition find_scene (scenes : list Scene) (scene_id : Z) : option Scene :=
  List.find (fun s => id s =? scene_id) scenes.

(** The audio priority [render_scene] determines for a scene. *)
Definition scene_audio_priority (scene_data : option Scene) : string :=
  match scene_data with
  | Some s =>
      let audio_priority := default "tts" (audio_priority s) in
      if (String.eqb audio_priority "tts" && skip_tts s)%bool then "veo"
      else audio_priority
  | None => "tts"
  end.

(** [BibleOrchestrator.render_scene]. *)
Definition render_scene (self : Orchestrator) (scene_id : Z) (st : State) : bool * State :=
  let shorts := shorts_mode self in
  let video_path := get_scene_video_path (pm self) scene_id shorts in
  let audio_path := get_audio_path (pm self) scene_id in
  let vtt_path := get_vtt_path (pm self) scene_id in
  let output_path := get_clip_path (pm self) scene_id shorts in
  if exists_larger output_path (1024 * 1024) st then (true, st)
  else if negb (exists_ video_path st) then (false, st)
  else
    let audio_priority := scene_audio_priority (find_scene (scenes self) scene_id) in
    if String.eqb audio_priority "veo" then
      render_veo shorts video_path vtt_path output_path st
    else if (String.eqb audio_priority "mix" && exists_ audio_path st)%bool then
      render_mix shorts video_path audio_path vtt_path output_path st
    else
      (* "mix" without a narration file assigns audio_priority = "veo" here,
         after the veo branch; control continues into the default mode *)
      render_tts shorts video_path audio_path vtt_path output_path st.

(** The loop of [render_all]: one [render_scene] per scene, counting the
    successes. *)
Fixpoint render_loop (self : Orchestrator) (todo : list Scene) (st : State) : Z * State :=
  match todo with
  | [] => (0, st)
  | scene :: rest =>
      let '(ok, st1) := render_scene self (id scene) st in
      let '(success, st2) := render_loop self rest st1 in
      ((if ok then 1 else 0) + success, st2)
  end.

(** [data/assets/cta/veo_cta.mp4], relative to the working directory. *)
Definition cta_path : string :=
  os_path_join (os_path_join (os_path_join "data" "assets") "cta") "veo_cta.mp4".

(** [max(0, x)]: [x] when [x > 0], else [0]. *)
Definition max0 (x : float) : float :=
  if PrimFloat.ltb 0 x then x else 0%float.

(** [BibleOrchestrator._apply_universal_cta]. *)
Definition _apply_universal_cta (video_path : string) (is_shorts : bool) (st : State)
  : string * State :=
  if negb (exists_ cta_path st) then (video_path, st)
  else
    let duration := get_duration video_path st in
    let start_time := max0 (duration - 5.0)%float in
    let output_path := str_replace ".mp4" "_cta.mp4" video_path in
    let scale_w := if is_shorts then 860 else 640 in
    let y_pos := if is_shorts then "H-h-550" else "H-h-140" in
    let '(ok, st1) :=
      run_cmd (CmdCtaOverlay video_path cta_path scale_w y_pos start_time duration
                 output_path) st in
    if ok then
      match shutil_move output_path video_path st1 with
      | Some st2 => (video_path, st2)
      | None => (video_path, st1)   (* except Exception: return video_path *)
      end
    else
      let st2 := if exists_ output_path st1 then os_remove output_path st1 else st1 in
      (video_path, st2).

(** [f"clip_{idx:03d}.mp4"]. *)
Definition clip_name (idx : Z) : string := "clip_" +:+ fmt_0d 3 idx +:+ ".mp4".

(** The ids of the scenes whose clip exists with more than 1024 bytes, in
    the order of [self.scenes]. *)
Definition clip_ids (self : Orchestrator) (st : State) : list Z :=
  map id
    (List.filter
       (fun scene => exists_larger (get_clip_path (pm self) (id scene) (shorts_mode self)) 1024 st)
       (scenes self)).

(** [sorted(clip_ids)]. *)
Definition sorted (ids : list Z) : list Z := merge_sort Z.le ids.

(** The pre-normalization loop of [merge_clips]; [false] as soon as one
    command fails. *)
Fixpoint normalize_loop (self : Orchestrator) (norm_dir : string) (ids : list Z) (st : State)
  : bool * State :=
  match ids with
  | [] => (true, st)
  | idx :: rest =>
      let src := get_clip_path (pm self) idx (shorts_mode self) in
      let dst := os_path_join norm_dir (clip_name idx) in
      let '(ok, st1) := run_cmd (CmdNormalize src dst) st in
      if negb ok then (false, st1)
      else normalize_loop self norm_dir rest st1
  end.

Definition render_dir (self : Orchestrator) : string :=
  match pm self with
  | ChapterPM c => if shorts_mode self then clips_shorts c else rendered (pm self)
  | LegacyPM _ => rendered (pm self)
  end.

Definition merge_output (self : Orchestrator) : string :=
  match pm self with
  | ChapterPM c => if shorts_mode self then chapter_shorts_video c else final_video (pm self)
  | LegacyPM _ => final_video (pm self)
  end.

(** [shorts or (hasattr(self.pm, 'chapter_idx') and self.pm.chapter_idx == 0)]. *)
Definition wants_cta (self : Orchestrator) : bool :=
  (shorts_mode self ||
   match pm self with
   | ChapterPM c => chapter_idx c =? 0
   | LegacyPM _ => false
   end)%bool.

(** [BibleOrchestrator.merge_clips]; [None] is the Python [None]. *)
Definition merge_clips (self : Orchestrator) (st : State) : option string * State :=
  let ids := clip_ids self st in
  match ids with
  | [] => (None, st)
  | _ :: _ =>
      let norm_dir := os_path_join (render_dir self) "_normalized" in
      let '(ok, st1) := normalize_loop self norm_dir (sorted ids) st in
      if negb ok then (None, st1)
      else
        let norm_concat := os_path_join norm_dir "concat_list.txt" in
        let st2 :=
          write_lines norm_concat
            (map (fun idx => "file '" +:+ clip_name idx +:+ "'") (sorted ids)) st1 in
        let output := merge_output self in
        let '(ok, st3) := run_cmd (CmdConcat norm_concat output) st2 in
        if ok then
          let st4 := shutil_rmtree norm_dir st3 in
          if wants_cta self then
            let '(output', st5) := _apply_universal_cta output (shorts_mode self) st4 in
            (Some output', st5)
          else (Some output, st4)
        else (None, st3)
  end.

End Engine.

(** ** Intro auto-assembly (the scene matcher) *)

Definition lower_ascii (c : Ascii.ascii) : Ascii.ascii :=
  let n := Ascii.nat_of_ascii c in
  if ((65 <=? n)%nat && (n <=? 90)%nat)%bool then Ascii.ascii_of_nat (n + 32) else c.

(** [s.lower()], on ASCII text. *)
Fixpoint lower (s : string) : string :=
  match s with
  | EmptyString => EmptyString
  | String c s' => String (lower_ascii c) (lower s')
  end.

Definition is_az (c : Ascii.ascii) : bool :=
  let n := Ascii.nat_of_ascii c in ((97 <=? n)%nat && (n <=? 122)%nat)%bool.

(** [re.findall(r'[a-z]+', s)]: the maximal runs of lower-case letters;
    [cur] is the run being read. *)
Fixpoint findall_az (s : string) (cur : string) : list string :=
  match s with
  | EmptyString => if String.eqb cur "" then [] else [cur]
  | String c s' =>
      if is_az c then findall_az s' (cur +:+ String c EmptyString)
      else if String.eqb cur "" then findall_az s' ""
      else cur :: findall_az s' ""
  end.

Definition stop_words : list string :=
  [ "the"; "a"; "an"; "is"; "are"; "was"; "were"; "be"; "been";
    "being"; "have"; "has"; "had"; "do"; "does"; "did"; "will";
    "would"; "could"; "should"; "may"; "might"; "shall"; "can";
    "to"; "of"; "in"; "for"; "on"; "with"; "at"; "by"; "from";
    "and"; "or"; "but"; "not"; "no"; "nor"; "so"; "yet";
    "as"; "if"; "then"; "than"; "that"; "this"; "these"; "those";
    "his"; "her"; "its"; "their"; "your"; "our"; "my";
    "he"; "she"; "it"; "they"; "we"; "you"; "i";
    "him"; "them"; "us"; "me"; "who"; "whom"; "which";
    "what"; "where"; "when"; "how"; "why";
    "all"; "each"; "every"; "both"; "few"; "more";
    "other"; "some"; "such"; "only"; "own"; "same";
    "up"; "out"; "off"; "over"; "under"; "into";
    "about"; "between"; "through"; "during"; "before"; "after";
    "pixar"; "disney"; "3d"; "animation"; "rendered"; "style";
    "quality"; "detailed"; "ultra"; "4k"; "cinematic";
    "shot"; "medium"; "close"; "wide"; "angle"; "camera" ].

(** [_extract_keywords(prompt, narration)]; a Python set is a list without
    repetitions. *)
Definition _extract_keywords (prompt : VideoPrompt) (narration : string) : list string :=
  let full_text :=
    lower (narration +:+ " " +:+ objects prompt +:+ " " +:+ action prompt
           +:+ " " +:+ atmosphere prompt) in
  let words := findall_az full_text "" in
  remove_dups
    (List.filter
       (fun w => ((2 <? String.length w)%nat && negb (bool_decide (w ∈ stop_words)))%bool)
       words).

(** [a / b] on two set sizes. *)
Definition truediv (a b : nat) : float :=
  (of_uint63 (Uint63.of_Z (Z.of_nat a)) / of_uint63 (Uint63.of_Z (Z.of_nat b)))%float.

(** [len(x & y) / len(x | y) if len(x | y) > 0 else 0]. *)
Definition overlap_ratio (x y : list string) : float :=
  let overlap := length (list_intersection x y) in
  let total := length (list_union x y) in
  if (0 <? total)%nat then truediv overlap total else 0%float.

Definition nonempty {A} (l : list A) : bool :=
  match l with [] => false | _ :: _ => true end.

(** A chapter entry of [project.json]. *)
Record Chapter := {
  ch_index : Z;
  ch_title : string;
  ch_slug : string;
}.

(** [ProjectManager]: its project root and chapter list. *)
Record Project := {
  proj_root : string;
  proj_chapters : list Chapter;
}.

(** [ProjectManager.get_chapter]. *)
Definition get_chapter (proj : Project) (chapter_idx : Z) : option Chapter :=
  List.find (fun ch => ch_index ch =? chapter_idx) (proj_chapters proj).

(** [ProjectManager.get_chapter_pm]. *)
Definition get_chapter_pm (proj : Project) (chapter_idx : Z) : option path_manager :=
  match get_chapter proj chapter_idx with
  | Some ch =>
      Some (ChapterPM {| cpm_project_root := proj_root proj;
                         chapter_idx := ch_index ch;
                         chapter_slug := ch_slug ch |})
  | None => None
  end.

(** An entry of [source_catalog]. *)
Record Source := {
  src_chapter_idx : Z;
  src_chapter_slug : string;
  src_chapter_title : string;
  src_scene_id : Z;
  src_narration : string;
  src_characters : list string;
  src_video_prompt : VideoPrompt;
  src_path_manager : path_manager;
}.

(** An entry of [intro_manual_map.json]; [reason] is [None] when absent. *)
Record ManualEntry := {
  intro_scene : Z;
  source_chapter : Z;
  source_scene : Z;
  reason : option string;
}.

(** An entry of [mapping], saved to [intro_assembly_map.json]. *)
Inductive MatchRecord :=
  | ManualRecord (intro_scene : Z) (intro_narration : string)
      (source_chapter source_scene : Z) (reason : string)
  | AutoRecord (intro_scene : Z) (intro_narration : string)
      (source_chapter : Z) (source_chapter_title : string) (source_scene : Z)
      (source_narration : string) (score : float).

Definition method (r : MatchRecord) : string :=
  match r with
  | ManualRecord _ _ _ _ _ => "manual"
  | AutoRecord _ _ _ _ _ _ _ => "auto"
  end.


Definition record_source (r : MatchRecord) : Z * Z :=
  match r with
  | ManualRecord _ _ c s _ => (c, s)
  | AutoRecord _ _ c _ s _ _ => (c, s)
  end.

(** [manual_map[entry["intro_scene"]] = entry], in file order. *)
Definition build_manual_map (manual_entries : list ManualEntry) : gmap Z ManualEntry :=
  foldl (fun m entry => <[intro_scene entry := entry]> m) ∅ manual_entries.

Definition EXCLUDED_CHAPTERS : list Z := [12].

(** The catalog loop of [assemble_intro] over [proj.get_all_chapters()];
    [scripts] gives the scenes of the [script.json] read at a path. *)
Fixpoint build_catalog (proj : Project) (scripts : string -> list Scene) (st : State)
  (chs : list Chapter) (source_catalog : list Source) (chapter_pms : gmap Z path_manager)
  : list Source * gmap Z path_manager :=
  match chs with
  | [] => (source_catalog, chapter_pms)
  | ch :: rest =>
      let idx := ch_index ch in
      if ((idx =? 0) || bool_decide (idx ∈ EXCLUDED_CHAPTERS))%bool
      then build_catalog proj scripts st rest source_catalog chapter_pms
      else
        match get_chapter_pm proj idx with
        | None => build_catalog proj scripts st rest source_catalog chapter_pms
        | Some ch_pm =>
            let chapter_pms := <[idx := ch_pm]> chapter_pms in
            let script_path := script_file ch_pm in
            if negb (exists_ script_path st)
            then build_catalog proj scripts st rest source_catalog chapter_pms
            else
              let found :=
                List.filter
                  (fun scene => exists_ (get_scene_video_path ch_pm (id scene) false) st)
                  (scripts script_path) in
              let entries :=
                map (fun scene =>
                       {| src_chapter_idx := idx;
                          src_chapter_slug := ch_slug ch;
                          src_chapter_title := ch_title ch;
                          src_scene_id := id scene;
                          src_narration := narration scene;
                          src_characters := characters scene;
                          src_video_prompt := video_prompt scene;
                          src_path_manager := ch_pm |}) found in
              build_catalog proj scripts st rest (source_catalog ++ entries) chapter_pms
        end
  end.

(** The state of the slot loop. *)
Record Assembly := {
  disk : State;
  used_sources : gset (Z * Z);
  mapping : list MatchRecord;
}.

(** The scoring loop over [source_catalog] for one slot; [score_of] is the
    raw score of a source for the slot. *)
Fixpoint best_match (score_of : Source -> float) (used_sources : gset (Z * Z))
  (source_catalog : list Source) (best_score : float) (best_source : option Source)
  : float * option Source :=
  match source_catalog with
  | [] => (best_score, best_source)
  | src :: rest =>
      let src_key := (src_chapter_idx src, src_scene_id src) in
      let reuse_penalty := if bool_decide (src_key ∈ used_sources) then 0.3%float else 0.0%float in
      let score := (score_of src - reuse_penalty)%float in
      if PrimFloat.ltb best_score score
      then best_match score_of used_sources rest score (Some src)
      else best_match score_of used_sources rest best_score best_source
  end.

Section Matcher.

(** [SequenceMatcher(None, a, b).ratio()] of difflib. *)
Variable ratio : string -> string -> float.

(** The built-in [round(x, 3)]. *)
Variable round3 : float -> float.

(** [BibleOrchestrator._scene_match_score]. *)
Definition _scene_match_score
  (intro_narr : string) (intro_chars : list string) (intro_prompt : VideoPrompt)
  (src_narr : string) (src_chars : list string) (src_prompt : VideoPrompt) : float :=
  let score := 0.0%float in
  let text_sim := ratio (lower intro_narr) (lower src_narr) in
  let score := (score + text_sim * 0.4)%float in
  let intro_char_set := remove_dups (map lower intro_chars) in
  let src_char_set := remove_dups (map lower src_chars) in
  let score :=
    if (nonempty intro_char_set && nonempty src_char_set)%bool then
      (score + overlap_ratio intro_char_set src_char_set * 0.25)%float
    else if (negb (nonempty intro_char_set) && negb (nonempty src_char_set))%bool then
      (score + 0.1)%float
    else score in
  let intro_keywords := _extract_keywords intro_prompt intro_narr in
  let src_keywords := _extract_keywords src_prompt src_narr in
  let score :=
    if (nonempty intro_keywords && nonempty src_keywords)%bool then
      (score + overlap_ratio intro_keywords src_keywords * 0.35)%float
    else score in
  score.

Definition slot_score (intro_scene : Scene) (src : Source) : float :=
  _scene_match_score
    (narration intro_scene) (characters intro_scene) (video_prompt intro_scene)
    (src_narration src) (src_characters src) (src_video_prompt src).

(** [chapter_pms.get(src_ch) or proj.get_chapter_pm(src_ch)]. *)
Definition cached_chapter_pm (proj : Project) (chapter_pms : gmap Z path_manager)
  (src_ch : Z) : option path_manager :=
  match chapter_pms !! src_ch with
  | Some p => Some p
  | None => get_chapter_pm proj src_ch
  end.

(** Priority 1 of the slot loop: the manual entry of the slot together with
    its source video, when the entry's chapter resolves and the video
    exists; [None] means the loop goes on to auto-matching. *)
Definition manual_source (proj : Project) (manual_map : gmap Z ManualEntry)
  (chapter_pms : gmap Z path_manager) (intro_id : Z) (st : State)
  : option (ManualEntry * string) :=
  match manual_map !! intro_id with
  | Some entry =>
      match cached_chapter_pm proj chapter_pms (source_chapter entry) with
      | Some ch_pm =>
          let src_video := get_scene_video_path ch_pm (source_scene entry) false in
          if exists_ src_video st then Some (entry, src_video) else None
      | None => None
      end
  | None => None
  end.

(** One iteration of [for intro_scene in intro_scenes]; [None] when a copy
    raises. *)
Definition assemble_slot (self : Orchestrator) (proj : Project)
  (manual_map : gmap Z ManualEntry) (chapter_pms : gmap Z path_manager)
  (source_catalog : list Source) (intro_scene : Scene) (a : Assembly)
  : option Assembly :=
  let intro_id := id intro_scene in
  let intro_narration := narration intro_scene in
  let dst_video := get_scene_video_path (pm self) intro_id false in
  match manual_source proj manual_map chapter_pms intro_id (disk a) with
  | Some (entry, src_video) =>
      match shutil_copy2 src_video dst_video (disk a) with
      | Some st' =>
          Some {| disk := st';
                  used_sources := {[ (source_chapter entry, source_scene entry) ]} ∪ used_sources a;
                  mapping := mapping a ++
                    [ManualRecord intro_id (str_take 80 intro_narration)
                       (source_chapter entry) (source_scene entry)
                       (default "manual override" (reason entry))] |}
      | None => None
      end
  | None =>
      let '(best_score, best_source) :=
        best_match (slot_score intro_scene) (used_sources a) source_catalog (-1)%float None in
      match best_source with
      | Some best =>
          let src_key := (src_chapter_idx best, src_scene_id best) in
          let src_video := get_scene_video_path (src_path_manager best) (src_scene_id best) false in
          match shutil_copy2 src_video dst_video (disk a) with
          | Some st' =>
              Some {| disk := st';
                      used_sources := {[ src_key ]} ∪ used_sources a;
                      mapping := mapping a ++
                        [AutoRecord intro_id (str_take 80 intro_narration)
                           (src_chapter_idx best) (src_chapter_title best)
                           (src_scene_id best) (str_take 80 (src_narration best))
                           (round3 best_score)] |}
          | None => None
          end
      | None => Some a
      end
  end.

Fixpoint assemble_loop (self : Orchestrator) (proj : Project)
  (manual_map : gmap Z ManualEntry) (chapter_pms : gmap Z path_manager)
  (source_catalog : list Source) (intro_scenes : list Scene) (a : Assembly)
  : option Assembly :=
  match intro_scenes with
  | [] => Some a
  | intro_scene :: rest =>
      match assemble_slot self proj manual_map chapter_pms source_catalog intro_scene a with
      | Some a' => assemble_loop self proj manual_map chapter_pms source_catalog rest a'
      | None => None
      end
  end.

(** What a run of [assemble_intro] leaves: its return value, the disk, and
    the list dumped to [intro_assembly_map.json] ([None] when the run
    returns before the dump). *)
Record Assembled := {
  returned : bool;
  final_disk : State;
  saved_mapping : option (list MatchRecord);
}.

(** [BibleOrchestrator.assemble_intro]; [manual_entries] is the content of
    [intro_manual_map.json] (empty when the file is absent); [None] when
    the run raises. *)
Definition assemble_intro (self : Orchestrator) (proj : Project)
  (manual_entries : list ManualEntry) (scripts : string -> list Scene) (st : State)
  : option Assembled :=
  let intro_scenes := scenes self in
  match intro_scenes with
  | [] => Some {| returned := false; final_disk := st; saved_mapping := None |}
  | _ :: _ =>
      let manual_map := build_manual_map manual_entries in
      let '(source_catalog, chapter_pms) :=
        build_catalog proj scripts st (proj_chapters proj) [] ∅ in
      match assemble_loop self proj manual_map chapter_pms source_catalog intro_scenes
              {| disk := st; used_sources := ∅; mapping := [] |} with
      | Some a =>
          Some {| returned := true; final_disk := disk a; saved_mapping := Some (mapping a) |}
      | None => None
      end
  end.

End Matcher.

(** ** Asset validation and the render-and-merge step *)

(** [needle in s]. *)
Fixpoint str_contains (needle s : string) : bool :=
  match s with
  | EmptyString => String.eqb needle ""
  | String _ s' => (String.prefix needle s || str_contains needle s')%bool
  end.

(** [validators.validate_audio_asset]; a probe that fails makes the
    validator return [False], as does the [0.0] it is recorded as here. *)
Definition validate_audio_asset (path : string) (st : State) : bool :=
  match fs st !! path with
  | None => false
  | Some f =>
      if fsize f <? 1024 then false
      else if PrimFloat.ltb (fprobe f) 0.5 then false
      else true
  end.

(** [validators.validate_video_asset]. *)
Definition validate_video_asset (path : string) (st : State) : bool :=
  match fs st !! path with
  | None => false
  | Some f =>
      if fsize f <? 10 * 1024 then false
      else if PrimFloat.ltb (fprobe f) 1.0 then false
      else true
  end.

(** [validators.validate_vtt_asset]; the header holds no line break, so it
    is in the content iff it is in one of the lines. *)
Definition validate_vtt_asset (path : string) (st : State) : bool :=
  match fs st !! path with
  | None => false
  | Some f =>
      if fsize f <? 10 then false
      else existsb (str_contains "WEBVTT") (flines f)
  end.

(** The loop of [validators.validate_scene_videos] over the indices [idxs]:
    the [present] and the [missing] list. *)
Fixpoint validate_loop (scenes_dir : string) (idxs : list Z) (st : State)
  : list Z * list Z :=
  match idxs with
  | [] => ([], [])
  | i :: rest =>
      let '(present, missing) := validate_loop scenes_dir rest st in
      let path := os_path_join scenes_dir ("scene_" +:+ fmt_0d 3 i +:+ ".mp4") in
      if validate_video_asset path st then (i :: present, missing)
      else (present, i :: missing)
  end.

(** [validators.validate_scene_videos]: [for i in range(1, scene_count + 1)]. *)
Definition validate_scene_videos (scenes_dir : string) (scene_count : nat) (st : State)
  : list Z * list Z :=
  validate_loop scenes_dir (seqZ 1 (Z.of_nat scene_count)) st.

Section Pipeline.

Variable engine : Cmd -> gmap string file -> EngineResult.

(** [BibleOrchestrator.normalize_scene_files], kept abstract: it copies
    misnamed uploads to their expected names, and which upload it picks
    depends on the order of [os.listdir]. *)
Variable normalize_scene_files : Orchestrator -> State -> State.

(** [BibleOrchestrator.check_scene_videos]: the [present] and [missing]
    lists, and the disk as the normalization left it. *)
Definition check_scene_videos (self : Orchestrator) (st : State)
  : (list Z * list Z) * State :=
  let st1 := normalize_scene_files self st in
  let scenes_dir :=
    match pm self with
    | ChapterPM c => if shorts_mode self then scenes_shorts c else scenes_dir (pm self)
    | LegacyPM _ => scenes_dir (pm self)
    end in
  (validate_scene_videos scenes_dir (length (scenes self)) st1, st1).

(** [BibleOrchestrator.render_all], with the script already loaded. *)
Definition render_all (self : Orchestrator) (st : State) : bool * State :=
  let '((present, missing), st1) := check_scene_videos self st in
  if nonempty missing then (false, st1)
  else
    let total := Z.of_nat (length (scenes self)) in
    let '(success, st2) := render_loop engine self (scenes self) st1 in
    (success =? total, st2).

(** The render-and-merge step of [run("resume")] and of the
    [--resume-chapter] branch of [main]:
    [render_ok = render_all(); if render_ok: output = merge_clips()]. *)
Definition render_and_merge (self : Orchestrator) (st : State) : option string * State :=
  let '(render_ok, st1) := render_all self st in
  if render_ok then merge_clips engine self st1 else (None, st1).

End Pipeline.

(** ** [api/production/project_manager.py] *)

Definition is_space (c : Ascii.ascii) : bool :=
  let n := Ascii.nat_of_ascii c in
  (((9 <=? n)%nat && (n <=? 13)%nat) || ((28 <=? n)%nat && (n <=? 32)%nat))%bool.

Definition is_digit (c : Ascii.ascii) : bool :=
  let n := Ascii.nat_of_ascii c in ((48 <=? n)%nat && (n <=? 57)%nat)%bool.

Definition is_AZ (c : Ascii.ascii) : bool :=
  let n := Ascii.nat_of_ascii c in ((65 <=? n)%nat && (n <=? 90)%nat)%bool.

(** [\w] on ASCII text. *)
Definition is_word (c : Ascii.ascii) : bool :=
  (is_az c || is_AZ c || is_digit c || (Ascii.nat_of_ascii c =? 95)%nat)%bool.

(** [[\s-]]. *)
Definition is_sep (c : Ascii.ascii) : bool :=
  (is_space c || (Ascii.nat_of_ascii c =? 45)%nat)%bool.

Fixpoint lstrip (l : list Ascii.ascii) : list Ascii.ascii :=
  match l with
  | c :: l' => if is_space c then lstrip l' else l
  | [] => []
  end.

(** [s.strip()]. *)
Definition strip (l : list Ascii.ascii) : list Ascii.ascii :=
  rev (lstrip (rev (lstrip l))).

(** [re.sub(r"[\s-]+", "_", text)]; [in_run] tells that the previous
    character belonged to the run being replaced. *)
Fixpoint collapse_seps (l : list Ascii.ascii) (in_run : bool) : list Ascii.ascii :=
  match l with
  | [] => []
  | c :: l' =>
      if is_sep c then
        if in_run then collapse_seps l' true
        else Ascii.ascii_of_nat 95 :: collapse_seps l' true
      else c :: collapse_seps l' false
  end.

(** [project_manager.slugify], on ASCII text. *)
Definition slugify (text : string) : string :=
  let text := strip (String.list_ascii_of_string (lower text)) in
  let text := List.filter (fun c => (is_word c || is_sep c)%bool) text in
  String.string_of_list_ascii (collapse_seps text false).

Definition STATUS_PENDING : string := "pending".
Definition STATUS_RENDERED : string := "rendered".
Definition STATUS_MERGED : string := "merged".

(** A chapter entry of [project.json], as [set_chapters] writes it. *)
Record ChapterEntry := {
  ce_index : Z;
  ce_title : string;
  ce_slug : string;
  ce_duration_target : string;
  ce_key_events : string;
  ce_scripture_range : string;
  ce_status : string;
  ce_dir : string;
}.

Definition with_status (ch : ChapterEntry) (status : string) : ChapterEntry :=
  {| ce_index := ce_index ch; ce_title := ce_title ch; ce_slug := ce_slug ch;
     ce_duration_target := ce_duration_target ch; ce_key_events := ce_key_events ch;
     ce_scripture_range := ce_scripture_range ch; ce_status := status;
     ce_dir := ce_dir ch |}.

(** The part of [project_data] the manager works on: the chapter list and
    the project status. *)
Record ProjectData := {
  pd_chapters : list ChapterEntry;
  pd_status : string;
}.

Record ProjectPathManager := {
  ppm_slug : string;
  ppm_root : string;
}.

(** [ProjectManager]: its path manager, the loaded [project_data], and
    what [project.json] holds ([None] before the first [_save]). *)
Record ProjectManager := {
  proj_pm : ProjectPathManager;
  project_data : ProjectData;
  project_json : option ProjectData;
}.

(** [_save] after the in-memory data became [d]. *)
Definition saved (p : ProjectManager) (d : ProjectData) : ProjectManager :=
  {| proj_pm := proj_pm p; project_data := d; project_json := Some d |}.

(** The manager as [assemble_intro] sees it. *)
Definition as_project (p : ProjectManager) : Project :=
  {| proj_root := ppm_root (proj_pm p);
     proj_chapters :=
       map (fun ch => {| ch_index := ce_index ch; ch_title := ce_title ch;
                         ch_slug := ce_slug ch |})
           (pd_chapters (project_data p)) |}.

(** [ProjectManager.get_chapter], on the entries. *)
Definition get_chapter_entry (p : ProjectManager) (chapter_idx : Z) : option ChapterEntry :=
  List.find (fun ch => ce_index ch =? chapter_idx) (pd_chapters (project_data p)).

(** The entry [get_chapter] finds gets the status: the first one with the
    index; [None] when there is none. *)
Fixpoint set_status_first (chapter_idx : Z) (status : string) (chs : list ChapterEntry)
  : option (list ChapterEntry) :=
  match chs with
  | [] => None
  | ch :: rest =>
      if ce_index ch =? chapter_idx then Some (with_status ch status :: rest)
      else option_map (cons ch) (set_status_first chapter_idx status rest)
  end.

(** [ProjectManager.update_chapter_status]. *)
Definition update_chapter_status (p : ProjectManager) (chapter_idx : Z) (status : string)
  : ProjectManager :=
  match set_status_first chapter_idx status (pd_chapters (project_data p)) with
  | Some chs =>
      saved p {| pd_chapters := chs; pd_status := pd_status (project_data p) |}
  | None => p
  end.

(** The loop of [get_next_pending]; [intro] is the pending introduction
    seen last. *)
Fixpoint next_pending_loop (chs : list ChapterEntry) (intro : option ChapterEntry)
  : option ChapterEntry :=
  match chs with
  | [] => intro
  | ch :: rest =>
      if negb (String.eqb (ce_status ch) STATUS_PENDING) then next_pending_loop rest intro
      else if String.eqb (ce_slug ch) "introduction" then next_pending_loop rest (Some ch)
      else Some ch
  end.

(** [ProjectManager.get_next_pending]. *)
Definition get_next_pending (p : ProjectManager) : option ChapterEntry :=
  next_pending_loop (pd_chapters (project_data p)) None.

(** [ProjectManager.get_rendered_chapters]. *)
Definition get_rendered_chapters (p : ProjectManager) : list ChapterEntry :=
  List.filter
    (fun ch => (String.eqb (ce_status ch) STATUS_RENDERED
                || String.eqb (ce_status ch) STATUS_MERGED)%bool)
    (pd_chapters (project_data p)).

(** A chapter of the plan given to [set_chapters]; an optional key is
    [None] when absent. *)
Record ChapterPlan := {
  plan_title : string;
  plan_slug : option string;
  plan_duration_target : option string;
  plan_key_events : option string;
  plan_scripture_range : option string;
}.

(** The loop of [set_chapters] over [enumerate(chapters)], from index
    [idx] on. *)
Fixpoint plan_entries (idx : Z) (chapters : list ChapterPlan) : list ChapterEntry :=
  match chapters with
  | [] => []
  | ch :: rest =>
      let slug := default (slugify (plan_title ch)) (plan_slug ch) in
      {| ce_index := idx; ce_title := plan_title ch; ce_slug := slug;
         ce_duration_target := default "2m" (plan_duration_target ch);
         ce_key_events := default "" (plan_key_events ch);
         ce_scripture_range := default "" (plan_scripture_range ch);
         ce_status := STATUS_PENDING;
         ce_dir := "ch" +:+ fmt_0d 2 idx +:+ "_" +:+ slug |}
      :: plan_entries (idx + 1) rest
  end.

(** [ProjectManager.set_chapters]. *)
Definition set_chapters (p : ProjectManager) (chapters : list ChapterPlan)
  : list ChapterEntry * ProjectManager :=
  let entries := plan_entries 0 chapters in
  (entries, saved p {| pd_chapters := entries; pd_status := "planned" |}).

(** [cpm.chapter_video] of a chapter entry. *)
Definition entry_video (p : ProjectManager) (ch : ChapterEntry) : string :=
  chapter_video {| cpm_project_root := ppm_root (proj_pm p);
                   chapter_idx := ce_index ch; chapter_slug := ce_slug ch |}.

(** [ProjectPathManager.final_video]. *)
Definition project_final_video (ppm : ProjectPathManager) : string :=
  os_path_join (os_path_join (ppm_root ppm) "final") ("master_" +:+ ppm_slug ppm +:+ ".mp4").

(** The videos [merge_all_chapters] collects, in chapter order. *)
Definition chapter_videos (p : ProjectManager) (st : State) : list string :=
  map (entry_video p)
    (List.filter (fun ch => exists_larger (entry_video p ch) 1024 st)
       (pd_chapters (project_data p))).

Section ProjectMerge.

Variable engine : Cmd -> gmap string file -> EngineResult.

(** [ProjectManager.merge_all_chapters]: the returned path, the manager
    and the disk. *)
Definition merge_all_chapters (p : ProjectManager) (st : State)
  : option string * ProjectManager * State :=
  let videos := chapter_videos p st in
  match videos with
  | [] => (None, p, st)
  | _ :: _ =>
      let concat_file := os_path_join (ppm_root (proj_pm p)) "concat_chapters.txt" in
      let st1 := write_lines concat_file (map (fun vp => "file '" +:+ vp +:+ "'") videos) st in
      let output_path := project_final_video (proj_pm p) in
      let '(ok, st2) := run_cmd engine (CmdConcat concat_file output_path) st1 in
      if negb ok then (None, p, st2)
      else
        let st3 := os_remove concat_file st2 in
        let chs :=
          map (fun ch =>
                 if String.eqb (ce_status ch) STATUS_RENDERED
                 then with_status ch STATUS_MERGED else ch)
              (pd_chapters (project_data p)) in
        (Some output_path,
         saved p {| pd_chapters := chs; pd_status := "complete" |},
         st3)
  end.

End ProjectMerge.

(** ** Notions the statements use *)

(** A character a slug may hold: a lower-case letter, a digit or an
    underscore. *)
Definition is_slug_char (c : Ascii.ascii) : bool :=
  (is_az c || is_digit c || (Ascii.nat_of_ascii c =? 95)%nat)%bool.

Definition is_ascii (c : Ascii.ascii) : bool := (Ascii.nat_of_ascii c <? 128)%nat.

(** The status [merge_all_chapters] leaves a chapter with. *)
Definition merged_status (status : string) : string :=
  if String.eqb status STATUS_RENDERED then STATUS_MERGED else status.

Definition is_pending (ch : ChapterEntry) : bool := String.eqb (ce_status ch) STATUS_PENDING.

Definition is_intro (ch : ChapterEntry) : bool := String.eqb (ce_slug ch) "introduction".

(** The number of chapters still pending. *)
Definition pending_count (p : ProjectManager) : nat :=
  length (List.filter is_pending (pd_chapters (project_data p))).

(** A prompt with its three fields in lower case. *)
Definition lower_prompt (prompt : VideoPrompt) : VideoPrompt :=
  {| objects := lower (objects prompt); action := lower (action prompt);
     atmosphere := lower (atmosphere prompt) |}.

(** The characters of a string are all lower-case letters. *)
Definition all_az (w : string) : Prop :=
  Forall (fun c => is_az c = true) (String.list_ascii_of_string w).

(** A successful engine run leaves a file of more than [n] bytes. *)
Definition engine_writes_over (engine : Cmd -> gmap string file -> EngineResult) (n : Z)
  : Prop :=
  forall c m, exit_ok (engine c m) = true ->
    exists f, written (engine c m) = Some f /\ n < fsize f.

(** What holds of every entry of the source catalog built over the disk
    [st]. *)
Definition catalog_entry_ok (proj : Project) (st : State) (src : Source) : Prop :=
  src_chapter_idx src <> 0 /\ src_chapter_idx src <> 12 /\
  get_chapter_pm proj (src_chapter_idx src) = Some (src_path_manager src) /\
  is_Some (fs st !! get_scene_video_path (src_path_manager src) (src_scene_id src) false).

(** An automatic record names a source of the catalog. *)
Definition auto_from (source_catalog : list Source) (r : MatchRecord) : Prop :=
  method r = "auto" ->
  exists src, src ∈ source_catalog /\
    record_source r = (src_chapter_idx src, src_scene_id src).

(** While [s.replace(".mp4", new)] skips the rest of an occurrence
    it has replaced, the text ahead is that rest. *)
Definition skip_ok (skip : nat) (s : string) : Prop :=
  match skip with
  | 0%nat => True
  | 1%nat => String.prefix "4" s = true
  | 2%nat => String.prefix "p4" s = true
  | 3%nat => String.prefix "mp4" s = true
  | _ => False
  end.

(** The last character of a string. *)
Definition last_char (s : string) : option Ascii.ascii :=
  last (String.list_ascii_of_string s).

(** What [merge_all_chapters] does to one chapter entry. *)
Definition mark_merged (ch : ChapterEntry) : ChapterEntry :=
  if String.eqb (ce_status ch) STATUS_RENDERED then with_status ch STATUS_MERGED else ch.

(** The three commands that write the temp file of a scene. *)
Definition is_base_render (c : Cmd) : bool :=
  match c with
  | CmdRenderVeo _ _ _ _ _ | CmdRenderMix _ _ _ _ _ _ | CmdRenderTTS _ _ _ _ _ _ _ _ => true
  | _ => false
  end.

(** "Every file an engine run of a failed [render_scene] call wrote is
    still on disk when the call returns." *)
Definition temp_files_kept (engine : Cmd -> gmap string file -> EngineResult)
  (self : Orchestrator) (scene_id : Z) (st : State) : Prop :=
  let '(ok, st') := render_scene engine self scene_id st in
  ok = false ->
  forall c r f,
    (c, r) ∈ drop (length (log st)) (log st') ->
    written r = Some f ->
    is_Some (fs st' !! cmd_output c).

(** The normalization command of one clip. *)
Definition norm_cmd (self : Orchestrator) (idx : Z) : Cmd :=
  CmdNormalize (get_clip_path (pm self) idx (shorts_mode self))
    (os_path_join (os_path_join (render_dir self) "_normalized") (clip_name idx)).

Definition is_normalize (c : Cmd) : bool :=
  match c with CmdNormalize _ _ => true | _ => false end.

(** "A merge that produces a chapter output had a clip on disk for every
    expected scene." *)
Definition merge_covers_all_scenes (engine : Cmd -> gmap string file -> EngineResult)
  (self : Orchestrator) (st : State) : Prop :=
  forall output st',
    merge_clips engine self st = (Some output, st') ->
    forall scene, scene ∈ scenes self ->
      is_Some (fs st !! get_clip_path (pm self) (id scene) (shorts_mode self)).

(** "The merger admits only scene ids whose clip is on disk with more
    than 1 MiB." *)
Definition merge_admits_only_1MiB_clips (self : Orchestrator) (st : State) : Prop :=
  forall i, i ∈ clip_ids self st ->
    exists_larger (get_clip_path (pm self) i (shorts_mode self)) (1024 * 1024) st = true.

(** The score a source ends up with for a slot: its raw score minus the
    reuse penalty. *)
Definition penalized (score_of : Source -> float) (used_sources : gset (Z * Z))
  (src : Source) : float :=
  (score_of src -
   (if bool_decide ((src_chapter_idx src, src_scene_id src) ∈ used_sources)
    then 0.3 else 0.0))%float.

(** What the scoring loop has established after the sources [seen], when it
    started from [best_score = b0] with no best source. *)
Definition scan_inv (pen : Source -> float) (b0 : float) (seen : list Source)
  (best_score : float) (best_source : option Source) : Prop :=
  (forall src, src ∈ seen -> PrimFloat.ltb best_score (pen src) = false) /\
  match best_source with
  | Some best =>
      PrimFloat.ltb b0 best_score = true /\
      exists i, seen !! i = Some best /\ best_score = pen best /\
        forall j src, (j < i)%nat -> seen !! j = Some src ->
          PrimFloat.leb (pen best) (pen src) = false
  | None => best_score = b0
  end.




(** ** Concrete projects, disks and engines

    The data the examples below are evaluated on: a project [david] with an
    intro chapter and two story chapters, a few media files, and engines
    that always succeed, always fail, or fail only on the subtitle pass. *)

Definition david_root : string := "/data/projects/david".

Definition ch00 : path_manager :=
  ChapterPM {| cpm_project_root := david_root; chapter_idx := 0; chapter_slug := "introduction" |}.
Definition ch01 : path_manager :=
  ChapterPM {| cpm_project_root := david_root; chapter_idx := 1; chapter_slug := "the_giant" |}.
Definition ch02 : path_manager :=
  ChapterPM {| cpm_project_root := david_root; chapter_idx := 2; chapter_slug := "five_stones" |}.

Definition no_prompt : VideoPrompt := {| objects := ""; action := ""; atmosphere := "" |}.

Definition mk_scene (i : Z) (text : string) (who : list string) (priority : option string) : Scene :=
  {| id := i; narration := text; characters := who; video_prompt := no_prompt;
     audio_priority := priority; skip_tts := false |}.

Definition media (size : Z) (seconds : float) : file :=
  {| fsize := size; fprobe := seconds; flines := [] |}.

Definition on_disk (files : list (string * file)) : State :=
  {| fs := list_to_map files; log := [] |}.

(** An engine that always exits with status zero and writes a 2 MiB file. *)
Definition engine_ok (c : Cmd) (m : gmap string file) : EngineResult :=
  {| exit_ok := true; written := Some (media 2097152 5) |}.

(** An engine that always fails, leaving a partial 100-byte file. *)
Definition engine_fail (c : Cmd) (m : gmap string file) : EngineResult :=
  {| exit_ok := false; written := Some (media 100 0) |}.

(** An engine that renders, but fails on the subtitle pass. *)
Definition engine_no_subtitles (c : Cmd) (m : gmap string file) : EngineResult :=
  match c with
  | CmdSubtitles _ _ _ => {| exit_ok := false; written := None |}
  | _ => {| exit_ok := true; written := Some (media 2097152 5) |}
  end.

(** Chapter 1 with two scenes: scene 1 asks for mixed audio, scene 2 has
    the default priority. *)
Definition giant : Orchestrator :=
  {| pm := ch01;
     scenes := [ mk_scene 1 "The giant roared a curse at Israel's army" ["GOLIATH"] (Some "mix");
                 mk_scene 2 "David picked up five smooth stones" ["DAVID"] None ];
     shorts_mode := false |}.

(** Scene 1 is rendered: its clip has 2 MiB. *)
Definition rendered_disk : State :=
  on_disk [ (get_clip_path ch01 1 false, media 2097152 5) ].

(** Scene 1 ([mix]) has its video but no narration file. *)
Definition video_only_disk : State :=
  on_disk [ (get_scene_video_path ch01 1 false, media 5000000 5) ].

(** Scene 2 (default priority): a 5 s video and an 8 s narration. *)
Definition short_video_disk : State :=
  on_disk [ (get_scene_video_path ch01 2 false, media 5000000 5);
            (get_audio_path ch01 2, media 64000 8) ].

(** Scene 2 with its video, narration and captions. *)
Definition captioned_disk : State :=
  on_disk [ (get_scene_video_path ch01 2 false, media 5000000 5);
            (get_audio_path ch01 2, media 64000 8);
            (get_vtt_path ch01 2, {| fsize := 200; fprobe := 0; flines := ["WEBVTT"] |}) ].

(** Chapter 1 after a partial render: scene 1 has its clip, scene 2 has
    none. *)
Definition partial_disk : State :=
  on_disk [ (get_clip_path ch01 1 false, media 2097152 5) ].

(** Scene 1 has a clip of 2048 bytes: more than 1 KiB, less than 1 MiB. *)
Definition small_clip_disk : State :=
  on_disk [ (get_clip_path ch01 1 false, media 2048 5) ].

(** Chapter 1 fully rendered: both clips are on disk. *)
Definition both_clips_disk : State :=
  on_disk [ (get_clip_path ch01 1 false, media 2097152 5);
            (get_clip_path ch01 2 false, media 3145728 8) ].

(** Chapter 1 with its scenes listed in the other order. *)
Definition giant_reversed : Orchestrator :=
  {| pm := pm giant; scenes := rev (scenes giant); shorts_mode := shorts_mode giant |}.

(** The chapter plan of the project: an introduction, one story chapter
    with its own slug, and an outro. *)
Definition plan_chapter (title : string) (slug : option string) : ChapterPlan :=
  {| plan_title := title; plan_slug := slug; plan_duration_target := None;
     plan_key_events := None; plan_scripture_range := None |}.

Definition david_plan : list ChapterPlan :=
  [ plan_chapter "Introduction" None;
    plan_chapter "The Giant" (Some "the_giant");
    plan_chapter "Outro" None ].

(** The manager of the project, just created, then planned. *)
Definition david_created : ProjectManager :=
  {| proj_pm := {| ppm_slug := "david"; ppm_root := david_root |};
     project_data := {| pd_chapters := []; pd_status := "created" |};
     project_json := Some {| pd_chapters := []; pd_status := "created" |} |}.

Definition david_planned : ProjectManager := (set_chapters david_created david_plan).2.

(** Chapter 1 ready to render: both scene videos under their expected
    names, and both narrations. *)
Definition ready_disk : State :=
  on_disk [ (get_scene_video_path ch01 1 false, media 5000000 5);
            (get_scene_video_path ch01 2 false, media 5000000 5);
            (get_audio_path ch01 1, media 64000 4);
            (get_audio_path ch01 2, media 64000 8) ].

(** [normalize_scene_files] on a disk whose uploads all have their
    expected names: nothing is copied. *)
Definition no_uploads (self : Orchestrator) (st : State) : State := st.

(** The merged chapter video (60 s) and the end-card asset. *)
Definition merged_disk : State :=
  on_disk [ (merge_output giant, media 9000000 60);
            (cta_path, media 300000 5) ].




(** A stand-in for difflib in the examples: [1.0] on equal strings, [0.0]
    otherwise. *)
Definition ratio_exact (a b : string) : float :=
  if String.eqb a b then 1%float else 0%float.

(** The project of the examples: the intro (chapter 0) and two story
    chapters. *)
Definition david : Project :=
  {| proj_root := david_root;
     proj_chapters :=
       [ {| ch_index := 0; ch_title := "Introduction"; ch_slug := "introduction" |};
         {| ch_index := 1; ch_title := "The Giant"; ch_slug := "the_giant" |};
         {| ch_index := 2; ch_title := "Five Stones"; ch_slug := "five_stones" |} ] |}.

(** The intro chapter: one slot, whose narration is word for word that of
    scene 1 of chapter 1. *)
Definition intro : Orchestrator :=
  {| pm := ch00;
     scenes := [ mk_scene 1 "The giant cursed and mocked the frightened soldiers"
                   ["GOLIATH"] None ];
     shorts_mode := false |}.

(** The scripts of the story chapters. *)
Definition david_scripts (script_path : string) : list Scene :=
  if String.eqb script_path (script_file ch01) then
    [ mk_scene 1 "The giant cursed and mocked the frightened soldiers" ["GOLIATH"] None ]
  else if String.eqb script_path (script_file ch02) then
    [ mk_scene 5 "David picked up five smooth stones from the brook" ["DAVID"] None ]
  else [].

Definition script_json : file := {| fsize := 4096; fprobe := 0; flines := [] |}.

(** Both story chapters are scripted and have their scene videos. *)
Definition story_disk : State :=
  on_disk [ (script_file ch01, script_json);
            (get_scene_video_path ch01 1 false, media 5000000 5);
            (script_file ch02, script_json);
            (get_scene_video_path ch02 5 false, media 6000000 7) ].

(** The curator maps slot 1 to scene 5 of chapter 2. *)
Definition curated : list ManualEntry :=
  [ {| intro_scene := 1; source_chapter := 2; source_scene := 5;
       reason := Some "opening shot" |} ].

(** A manual map that points slot 1 of the intro at the intro's own
    scene 1, and a disk where that video is already in place. *)
Definition self_reference : list ManualEntry :=
  [ {| intro_scene := 1; source_chapter := 0; source_scene := 1; reason := None |} ].

Definition own_video_disk : State :=
  on_disk [ (get_scene_video_path ch00 1 false, media 5000000 5) ].

(** A stand-in for [round(x, 3)] in the examples. *)
Definition no_rounding (x : float) : float := x.

(** ** Order facts on binary64 floats

    [a < b], [a <= b] of Python floats are [PrimFloat.ltb], [PrimFloat.leb];
    a comparison with NaN is false.  The facts below come from the
    specification of the comparisons over [spec_float]. *)

Module FloatOrder.

Definition sf_lt (x y : spec_float) : Prop := SFcompare x y = Some Lt.
Definition sf_le (x y : spec_float) : Prop :=
  SFcompare x y = Some Lt \/ SFcompare x y = Some Eq.

Lemma SFltb_true x y : SFltb x y = true <-> sf_lt x y.
Proof.
  unfold SFltb, sf_lt. destruct (SFcompare x y) as [[]|]; split; congruence.
Qed.

Lemma SFleb_true x y : SFleb x y = true <-> sf_le x y.
Proof.
  unfold SFleb, sf_le. destruct (SFcompare x y) as [[]|]; split;
    intuition congruence.
Qed.

Local Ltac cmp_cases :=
  repeat match goal with
  | |- context [Z.compare ?a ?b] =>
      let H := fresh in destruct (Z.compare_spec a b) as [H|H|H]
  | H : context [Z.compare ?a ?b] |- _ =>
      let H' := fresh in destruct (Z.compare_spec a b) as [H'|H'|H']
  | |- context [Pos.compare_cont Eq ?a ?b] =>
      change (Pos.compare_cont Eq a b) with (Pos.compare a b);
      let H := fresh in destruct (Pos.compare_spec a b) as [H|H|H]
  | H : context [Pos.compare_cont Eq ?a ?b] |- _ =>
      change (Pos.compare_cont Eq a b) with (Pos.compare a b) in H;
      let H' := fresh in destruct (Pos.compare_spec a b) as [H'|H'|H']
  end.

Local Ltac sf_crush :=
  unfold sf_lt, sf_le; intros;
  repeat match goal with
  | x : spec_float |- _ => destruct x
  | b : bool |- _ => destruct b
  end;
  simpl in *; try (intuition congruence);
  cmp_cases; simpl in *; subst;
  try (intuition (congruence || lia)).

Lemma sf_lt_irrefl x : ~ sf_lt x x.
Proof. sf_crush. Qed.

Lemma sf_lt_trans x y z : sf_lt x y -> sf_lt y z -> sf_lt x z.
Proof. sf_crush. Qed.

Lemma sf_lt_le_trans x y z : sf_lt x y -> sf_le y z -> sf_lt x z.
Proof. sf_crush. Qed.

Lemma sf_lt_not_le x y : sf_lt x y -> ~ sf_le y x.
Proof. sf_crush. Qed.

Lemma ltb_irrefl (a : float) : PrimFloat.ltb a a = false.
Proof.
  rewrite ltb_spec. apply not_true_is_false. rewrite SFltb_true.
  apply sf_lt_irrefl.
Qed.

Lemma ltb_trans (a b c : float) :
  PrimFloat.ltb a b = true -> PrimFloat.ltb b c = true ->
  PrimFloat.ltb a c = true.
Proof.
  rewrite !ltb_spec, !SFltb_true. apply sf_lt_trans.
Qed.

Lemma ltb_leb_trans (a b c : float) :
  PrimFloat.ltb a b = true -> PrimFloat.leb b c = true ->
  PrimFloat.ltb a c = true.
Proof.
  rewrite !ltb_spec, leb_spec, !SFltb_true, SFleb_true. apply sf_lt_le_trans.
Qed.

Lemma ltb_not_leb (a b : float) :
  PrimFloat.ltb a b = true -> PrimFloat.leb b a = false.
Proof.
  rewrite ltb_spec, leb_spec, SFltb_true. intros H.
  apply not_true_is_false. rewrite SFleb_true. by apply sf_lt_not_le.
Qed.

End FloatOrder.

(** ** The scene renderer *)

Section Renderer.

Context (engine : Cmd -> gmap string file -> EngineResult).

Lemma exists_true p st : exists_ p st = true <-> is_Some (fs st !! p).
Proof. unfold exists_. by rewrite bool_decide_eq_true. Qed.

Lemma exists_false p st : exists_ p st = false <-> fs st !! p = None.
Proof.
  unfold exists_. rewrite bool_decide_eq_false. by rewrite eq_None_not_Some.
Qed.

Lemma exists_larger_spec p n st :
  exists_larger p n st = true <-> exists f, fs st !! p = Some f /\ n < fsize f.
Proof.
  unfold exists_larger. destruct (fs st !! p) as [f|]; split.
  - intros H%Z.ltb_lt. eauto.
  - intros (f' & [= <-] & H). by apply Z.ltb_lt.
  - discriminate.
  - by intros (f' & [=] & _).
Qed.

(** C5. Rendering is idempotent: when the clip of a scene is already on
    disk with more than 1 MiB, [render_scene] returns [True] without
    invoking the engine and without touching the disk; so does a second
    call, and two calls in a row leave the state as it was. *)
Theorem render_scene_idempotent (self : Orchestrator) (scene_id : Z) (st : State) (clip : file) :
  fs st !! get_clip_path (pm self) scene_id (shorts_mode self) = Some clip ->
  1024 * 1024 < fsize clip ->
  render_scene engine self scene_id st = (true, st) /\
  (let '(ok1, st1) := render_scene engine self scene_id st in
   let '(ok2, st2) := render_scene engine self scene_id st1 in
   ok1 = true /\ ok2 = true /\ log st2 = log st /\ fs st2 = fs st).
Proof.
  intros Hclip Hsize.
  assert (Hskip : render_scene engine self scene_id st = (true, st)).
  { unfold render_scene.
    assert (exists_larger (get_clip_path (pm self) scene_id (shorts_mode self))
              (1024 * 1024) st = true) as ->; [|done].
    apply exists_larger_spec. eauto. }
  split; [done|]. rewrite Hskip, Hskip. done.
Qed.

(** The default TTS mode gives up at once when the narration is missing. *)
Lemma render_tts_no_audio shorts video_path audio_path vtt_path output_path st :
  fs st !! audio_path = None ->
  render_tts engine shorts video_path audio_path vtt_path output_path st = (false, st).
Proof.
  intros H. unfold render_tts. apply exists_false in H. by rewrite H.
Qed.

(** C2. What the code does for a MIX scene without narration: the scene's
    own video exists, its clip is not rendered yet, the narration file is
    missing; [render_scene] then reports failure, without invoking the
    engine once and without producing anything, instead of rendering with
    the video's own audio. *)
Theorem render_scene_mix_without_narration_fails
  (self : Orchestrator) (scene_id : Z) (scene : Scene) (st : State) :
  find_scene (scenes self) scene_id = Some scene ->
  audio_priority scene = Some "mix" ->
  exists_larger (get_clip_path (pm self) scene_id (shorts_mode self)) (1024 * 1024) st = false ->
  is_Some (fs st !! get_scene_video_path (pm self) scene_id (shorts_mode self)) ->
  fs st !! get_audio_path (pm self) scene_id = None ->
  render_scene engine self scene_id st = (false, st).
Proof.
  intros Hfind Hmix Hclip Hvideo Haudio.
  unfold render_scene. rewrite Hclip.
  apply exists_true in Hvideo. rewrite Hvideo. simpl negb. cbv iota.
  rewrite Hfind. unfold scene_audio_priority. rewrite Hmix. simpl.
  apply exists_false in Haudio as Haudio'. rewrite Haudio'. simpl.
  by apply render_tts_no_audio.
Qed.

Lemma os_remove_log p st : log (os_remove p st) = log st.
Proof. done. Qed.

Lemma os_rename_log a b st : log (os_rename a b st) = log st.
Proof. unfold os_rename. by destruct (fs st !! a). Qed.

Lemma burn_subtitles_log temp_path vtt_path output_path st :
  exists rest,
    log (burn_subtitles engine temp_path vtt_path output_path st).2 = log st ++ rest.
Proof.
  unfold burn_subtitles. destruct (exists_larger vtt_path 10 st).
  - unfold run_cmd. set (r := engine _ _).
    exists [(CmdSubtitles temp_path vtt_path output_path, r)].
    destruct (exit_ok r); simpl;
      match goal with |- context [exists_ ?p ?s] => destruct (exists_ p s) end; done.
  - exists []. rewrite app_nil_r. simpl.
    destruct (exists_ temp_path st); [apply os_rename_log | done].
Qed.

(** C3. Duration reconciliation in the default TTS mode, for a scene whose
    video probes to [v > 0] and whose narration probes to [a > 0]: the base
    render is submitted with an [atempo] audio filter exactly when [v < a]
    and [a / v > 1.05]; the factor is then [a / v] and the output is cut at
    [v]; otherwise the narration is not retimed and the output is cut at
    [a].  With [v = 5.0], [a = 8.0] the factor is [1.6] and the cut is at
    [5.0]; with [v = 7.8], [a = 8.0] there is no retiming. *)
Theorem tts_retime_iff (self : Orchestrator) (scene_id : Z) (st : State) (video audio : file) :
  let video_path := get_scene_video_path (pm self) scene_id (shorts_mode self) in
  let audio_path := get_audio_path (pm self) scene_id in
  let output_path := get_clip_path (pm self) scene_id (shorts_mode self) in
  let temp_path := str_replace ".mp4" "_temp.mp4" output_path in
  let v := fprobe video in
  let a := fprobe audio in
  scene_audio_priority (find_scene (scenes self) scene_id) = "tts" ->
  exists_larger output_path (1024 * 1024) st = false ->
  fs st !! video_path = Some video ->
  fs st !! audio_path = Some audio ->
  PrimFloat.ltb 0 v = true ->
  PrimFloat.ltb 0 a = true ->
  (exists atempo t r rest,
     log (render_scene engine self scene_id st).2 =
       log st ++
       (CmdRenderTTS video_path audio_path temp_path 24
          (target_size (shorts_mode self)).1 (target_size (shorts_mode self)).2
          atempo t, r) :: rest /\
     (is_Some atempo <->
        PrimFloat.ltb v a = true /\ PrimFloat.ltb 1.05 (a / v) = true) /\
     (is_Some atempo -> atempo = Some (a / v)%float /\ t = v) /\
     (atempo = None -> t = a)) /\
  speed_adjust 5 8 = (Some 1.6%float, 5%float) /\
  speed_adjust 7.8 8 = (None, 8%float).
Proof.
  intros video_path audio_path output_path temp_path v a Hprio Hclip Hvideo Haudio Hv Ha.
  split; [|split; reflexivity].
  unfold render_scene. fold video_path audio_path output_path.
  rewrite Hclip, Hprio.
  assert (exists_ video_path st = true) as -> by (apply exists_true; eauto).
  simpl. unfold render_tts.
  assert (exists_ audio_path st = true) as -> by (apply exists_true; eauto).
  simpl. unfold get_duration. rewrite Hvideo, Haudio. fold v a.
  rewrite (FloatOrder.ltb_not_leb _ _ Ha).
  destruct (target_size (shorts_mode self)) as [w h]. simpl fst. simpl snd.
  fold temp_path.
  destruct (speed_adjust v a) as [atempo t] eqn:Hadj.
  unfold run_cmd. simpl log. simpl fs.
  set (c := CmdRenderTTS _ _ _ _ _ _ _ _). set (r := engine c (fs st)).
  set (st1 := {| fs := _; log := _ |}).
  exists atempo, t, r.
  assert (Hlog : exists rest,
    log ((if negb (exit_ok r) then (false, st1)
          else burn_subtitles engine temp_path
                 (get_vtt_path (pm self) scene_id) output_path st1).2) =
    log st ++ (c, r) :: rest).
  { destruct (exit_ok r); simpl.
    - destruct (burn_subtitles_log temp_path (get_vtt_path (pm self) scene_id)
                  output_path st1) as [rest Hrest].
      exists rest. rewrite Hrest. simpl. by rewrite <- app_assoc.
    - by exists []. }
  destruct Hlog as [rest Hrest]. exists rest. split; [exact Hrest|].
  unfold speed_adjust in Hadj. rewrite Hv in Hadj. simpl in Hadj.
  destruct (PrimFloat.ltb v a); simpl in Hadj;
    [destruct (PrimFloat.ltb 1.05 (a / v))|]; injection Hadj as <- <-;
    (split; [split; [intros [? ?]; done || (split; done) | intros [? ?]; done || eauto]
            |split; [intros [? ?]; done || (split; congruence) | done]]).
Qed.

Lemma burn_subtitles_failure temp_path vtt_path output_path st st' :
  burn_subtitles engine temp_path vtt_path output_path st = (false, st') ->
  exists r',
    exit_ok r' = false /\
    log st' = log st ++ [(CmdSubtitles temp_path vtt_path output_path, r')] /\
    fs st' !! temp_path = None.
Proof.
  unfold burn_subtitles. destruct (exists_larger vtt_path 10 st); [|discriminate].
  unfold run_cmd. set (r := engine _ _). set (st1 := {| fs := _; log := _ |}).
  destruct (exit_ok r) eqn:Hr; simpl; [discriminate|].
  intros [= <-]. exists r. split; [done|].
  destruct (exists_ temp_path st1) eqn:Ht.
  - split; [done|]. simpl. apply lookup_delete_eq.
  - split; [done|]. by apply exists_false.
Qed.

Lemma base_then_subtitles_failure c temp_path vtt_path output_path st st' :
  is_base_render c = true ->
  cmd_output c = temp_path ->
  (let '(ok, st1) := run_cmd engine c st in
   if negb ok then (false, st1)
   else burn_subtitles engine temp_path vtt_path output_path st1) = (false, st') ->
  (exists r, exit_ok r = false /\
     log st' = log st ++ [(c, r)] /\
     fs st' = match written r with
              | Some f => <[temp_path := f]> (fs st)
              | None => fs st
              end) \/
  (exists r r', exit_ok r = true /\ exit_ok r' = false /\
     log st' = log st ++ [(c, r); (CmdSubtitles temp_path vtt_path output_path, r')] /\
     fs st' !! temp_path = None).
Proof.
  intros Hbase Hout. unfold run_cmd. set (r := engine c (fs st)).
  destruct (exit_ok r) eqn:Hr; simpl.
  - intros (r' & Hr' & Hlog & Htemp)%burn_subtitles_failure. right.
    exists r, r'. simpl in Hlog. rewrite <- app_assoc in Hlog. done.
  - intros [= <-]. left. exists r. rewrite Hout. done.
Qed.

(** C9 (as the code has it). A failed [render_scene] call is one of three
    things: a missing input (nothing ran, nothing changed); a failed base
    render, after which nothing is deleted and whatever the engine left at
    the temp path stays there; or a failed subtitle pass after a good base
    render, after which the temp file is gone.  In each case the render
    loop goes on with the remaining scenes from the state the failure left,
    counting no success for this scene. *)
Theorem render_scene_failure_cases (self : Orchestrator) (scene : Scene) (rest : list Scene)
  (st st' : State) :
  let output_path := get_clip_path (pm self) (id scene) (shorts_mode self) in
  let temp_path := str_replace ".mp4" "_temp.mp4" output_path in
  let vtt_path := get_vtt_path (pm self) (id scene) in
  render_scene engine self (id scene) st = (false, st') ->
  (st' = st \/
   (exists c r, is_base_render c = true /\ cmd_output c = temp_path /\
      exit_ok r = false /\
      log st' = log st ++ [(c, r)] /\
      fs st' = match written r with
               | Some f => <[temp_path := f]> (fs st)
               | None => fs st
               end) \/
   (exists c r r', is_base_render c = true /\ cmd_output c = temp_path /\
      exit_ok r = true /\ exit_ok r' = false /\
      log st' = log st ++ [(c, r); (CmdSubtitles temp_path vtt_path output_path, r')] /\
      fs st' !! temp_path = None)) /\
  render_loop engine self (scene :: rest) st = render_loop engine self rest st'.
Proof.
  intros output_path temp_path vtt_path Hfail. split.
  - revert Hfail. unfold render_scene. fold output_path vtt_path.
    destruct (exists_larger output_path (1024 * 1024) st); [discriminate|].
    destruct (negb (exists_ _ st)); [intros [= <-]; by left|].
    assert (Hcases : forall c,
      is_base_render c = true -> cmd_output c = temp_path ->
      (let '(ok, st1) := run_cmd engine c st in
       if negb ok then (false, st1)
       else burn_subtitles engine temp_path vtt_path output_path st1) = (false, st') ->
      st' = st \/
      (exists c r, is_base_render c = true /\ cmd_output c = temp_path /\
         exit_ok r = false /\ log st' = log st ++ [(c, r)] /\
         fs st' = match written r with
                  | Some f => <[temp_path := f]> (fs st)
                  | None => fs st
                  end) \/
      (exists c r r', is_base_render c = true /\ cmd_output c = temp_path /\
         exit_ok r = true /\ exit_ok r' = false /\
         log st' = log st ++ [(c, r); (CmdSubtitles temp_path vtt_path output_path, r')] /\
         fs st' !! temp_path = None)).
    { intros c Hb Ho H. right.
      destruct (base_then_subtitles_failure c _ _ _ _ _ Hb Ho H)
        as [(r & ? & ? & ?)|(r & r' & ? & ? & ? & ?)]; [left|right]; eauto 10. }
    destruct (String.eqb _ "veo").
    { unfold render_veo. destruct (target_size _) as [w h]. by apply Hcases. }
    destruct (_ && _)%bool.
    { unfold render_mix. destruct (target_size _) as [w h]. by apply Hcases. }
    unfold render_tts.
    destruct (negb (exists_ _ st)); [intros [= <-]; by left|].
    destruct (PrimFloat.leb _ 0); [intros [= <-]; by left|].
    destruct (target_size _) as [w h]. destruct (speed_adjust _ _) as [atempo t].
    by apply Hcases.
  - simpl. rewrite Hfail. by destruct (render_loop engine self rest st').
Qed.

End Renderer.

(** ** Examples for the renderer *)

Lemma render_scene_idempotent_witness :
  render_scene engine_fail giant 1 rendered_disk = (true, rendered_disk) /\
  (let '(ok1, st1) := render_scene engine_fail giant 1 rendered_disk in
   let '(ok2, st2) := render_scene engine_fail giant 1 st1 in
   ok1 = true /\ ok2 = true /\ log st2 = log rendered_disk /\ fs st2 = fs rendered_disk).
Proof.
  apply (render_scene_idempotent engine_fail giant 1 rendered_disk (media 2097152 5)).
  - reflexivity.
  - reflexivity.
Defined.

Lemma render_scene_mix_without_narration_fails_witness :
  render_scene engine_ok giant 1 video_only_disk = (false, video_only_disk).
Proof.
  apply (render_scene_mix_without_narration_fails engine_ok giant 1
           (mk_scene 1 "The giant roared a curse at Israel's army" ["GOLIATH"] (Some "mix"))).
  - reflexivity.
  - reflexivity.
  - reflexivity.
  - eexists. reflexivity.
  - reflexivity.
Defined.

(** The same scene under the source-audio priority renders on that disk. *)
Example source_priority_renders_video_only :
  (render_veo engine_ok false (get_scene_video_path ch01 1 false)
     (get_vtt_path ch01 1) (get_clip_path ch01 1 false) video_only_disk).1 = true.
Proof. reflexivity. Qed.

(** A 7.6 s video under an 8 s narration is retimed too: the factor is
    just above 1.05. *)
Example retime_just_above_threshold :
  speed_adjust 7.6 8 = (Some (8 / 7.6)%float, 7.6%float) /\
  PrimFloat.ltb 1.05 (8 / 7.6) = true.
Proof. split; reflexivity. Qed.

Lemma tts_retime_iff_witness :
  let video_path := get_scene_video_path ch01 2 false in
  let audio_path := get_audio_path ch01 2 in
  let temp_path := str_replace ".mp4" "_temp.mp4" (get_clip_path ch01 2 false) in
  (exists atempo t r rest,
     log (render_scene engine_ok giant 2 short_video_disk).2 =
       log short_video_disk ++
       (CmdRenderTTS video_path audio_path temp_path 24 1920 1080 atempo t, r) :: rest /\
     (is_Some atempo <->
        PrimFloat.ltb 5 8 = true /\ PrimFloat.ltb 1.05 (8 / 5) = true) /\
     (is_Some atempo -> atempo = Some (8 / 5)%float /\ t = 5%float) /\
     (atempo = None -> t = 8%float)) /\
  speed_adjust 5 8 = (Some 1.6%float, 5%float) /\
  speed_adjust 7.8 8 = (None, 8%float).
Proof.
  exact (tts_retime_iff engine_ok giant 2 short_video_disk
           (media 5000000 5) (media 64000 8)
           eq_refl eq_refl eq_refl eq_refl eq_refl eq_refl).
Defined.

(** C9, refuted as stated: the base render of scene 2 succeeds and writes
    the temp file, the subtitle pass fails, and the temp file is deleted
    before the failure is reported. *)
Lemma failed_subtitle_pass_deletes_temp :
  ~ temp_files_kept engine_no_subtitles giant 2 captioned_disk.
Proof.
  unfold temp_files_kept.
  destruct (render_scene engine_no_subtitles giant 2 captioned_disk) as [ok st'] eqn:E.
  vm_compute in E. injection E as <- <-.
  intros H.
  specialize (H eq_refl
    (CmdRenderTTS (get_scene_video_path ch01 2 false) (get_audio_path ch01 2)
       (str_replace ".mp4" "_temp.mp4" (get_clip_path ch01 2 false)) 24 1920 1080
       (Some (8 / 5)%float) 5%float)
    {| exit_ok := true; written := Some (media 2097152 5) |}
    (media 2097152 5)).
  assert (Hin : forall (x y : Cmd * EngineResult), x ∈ drop 0 [x; y])
    by (intros; simpl; apply list_elem_of_here).
  destruct H as [f Hf]; [apply Hin | reflexivity |].
  vm_compute in Hf. discriminate Hf.
Qed.

Lemma render_scene_failure_cases_witness :
  let scene := mk_scene 2 "David picked up five smooth stones" ["DAVID"] None in
  let st' := (render_scene engine_no_subtitles giant 2 captioned_disk).2 in
  let output_path := get_clip_path ch01 2 false in
  let temp_path := str_replace ".mp4" "_temp.mp4" output_path in
  let vtt_path := get_vtt_path ch01 2 in
  (st' = captioned_disk \/
   (exists c r, is_base_render c = true /\ cmd_output c = temp_path /\
      exit_ok r = false /\
      log st' = log captioned_disk ++ [(c, r)] /\
      fs st' = match written r with
               | Some f => <[temp_path := f]> (fs captioned_disk)
               | None => fs captioned_disk
               end) \/
   (exists c r r', is_base_render c = true /\ cmd_output c = temp_path /\
      exit_ok r = true /\ exit_ok r' = false /\
      log st' = log captioned_disk ++
                [(c, r); (CmdSubtitles temp_path vtt_path output_path, r')] /\
      fs st' !! temp_path = None)) /\
  render_loop engine_no_subtitles giant [scene] captioned_disk =
  render_loop engine_no_subtitles giant [] st'.
Proof.
  exact (render_scene_failure_cases engine_no_subtitles giant
           (mk_scene 2 "David picked up five smooth stones" ["DAVID"] None) []
           captioned_disk
           (render_scene engine_no_subtitles giant 2 captioned_disk).2
           eq_refl).
Defined.

(** ** Facts on [str_replace] and on the merger's output path *)

Lemma append_cons (c : Ascii.ascii) (s t : string) :
  String c s +:+ t = String c (s +:+ t).
Proof. reflexivity. Qed.

Lemma append_nil_l (t : string) : "" +:+ t = t.
Proof. reflexivity. Qed.

Lemma append_nil_r (s : string) : s +:+ "" = s.
Proof. induction s as [|c s IH]; [done|]. by rewrite append_cons, IH. Qed.

Lemma length_append (s t : string) :
  String.length (s +:+ t) = (String.length s + String.length t)%nat.
Proof.
  induction s as [|c s IH]; [done|]. rewrite append_cons. simpl. by rewrite IH.
Qed.

Lemma append_assoc (s t u : string) : (s +:+ t) +:+ u = s +:+ (t +:+ u).
Proof.
  induction s as [|c s IH]; [done|]. by rewrite !append_cons, IH.
Qed.

Lemma prefix_append (s t : string) : String.prefix s (s +:+ t) = true.
Proof.
  induction s as [|c s IH]; [by destruct t|].
  rewrite append_cons. simpl.
  destruct (Ascii.ascii_dec c c); [done|congruence].
Qed.

Lemma prefix_length (s t : string) :
  String.prefix s t = true -> (String.length s <= String.length t)%nat.
Proof.
  revert s. induction t as [|c t IH]; intros [|d s]; simpl; try (done || lia).
  destruct (Ascii.ascii_dec d c); [|done]. intros H%IH. lia.
Qed.

Section Replace.

Context (old new : string).
Context (Hold : (1 <= String.length old)%nat).
Context (Hnew : (String.length old < String.length new)%nat).

Lemma replace_aux_length_ge (s : string) (k : nat) :
  (String.length s <= String.length (replace_aux old new s k) + k)%nat.
Proof using Hold Hnew.
  revert k. induction s as [|c s IH]; intros k; [simpl; lia|].
  destruct k as [|k].
  - cbn [replace_aux]. destruct (String.prefix old (String c s)) eqn:Hp.
    + rewrite length_append. specialize (IH (String.length old - 1)%nat).
      simpl String.length. lia.
    + simpl String.length. specialize (IH 0%nat). lia.
  - cbn [replace_aux]. simpl String.length. specialize (IH k). lia.
Qed.

Lemma replace_aux_length_gt (s u v : string) (k : nat) :
  s = u +:+ old +:+ v ->
  (k <= String.length u)%nat ->
  (String.length s < String.length (replace_aux old new s k) + k)%nat.
Proof using Hold Hnew.
  revert u k. induction s as [|c s IH]; intros u k Hs Hk.
  - destruct u; [|done]. rewrite append_nil_l in Hs.
    destruct old; [simpl in Hold; lia|done].
  - destruct k as [|k]; cbn [replace_aux].
    + destruct (String.prefix old (String c s)) eqn:Hp.
      * rewrite length_append.
        pose proof (replace_aux_length_ge s (String.length old - 1)).
        simpl String.length. lia.
      * destruct u as [|d u].
        { rewrite append_nil_l in Hs. rewrite Hs, prefix_append in Hp. done. }
        rewrite append_cons in Hs. injection Hs as -> Hs.
        simpl String.length. specialize (IH u 0%nat Hs). lia.
    + destruct u as [|d u]; [simpl in Hk; lia|].
      rewrite append_cons in Hs. injection Hs as -> Hs. simpl in Hk.
      simpl String.length. specialize (IH u k Hs). lia.
Qed.

Lemma str_replace_changes (u : string) :
  str_replace old new (u +:+ old) <> u +:+ old.
Proof using Hold Hnew.
  intros Heq.
  assert (Hs : u +:+ old = u +:+ old +:+ "") by (by rewrite append_nil_r).
  pose proof (replace_aux_length_gt (u +:+ old) u "" 0 Hs ltac:(lia)) as Hlt.
  unfold str_replace in Heq. rewrite Heq in Hlt. lia.
Qed.

End Replace.

Lemma os_path_join_mp4 (a b u : string) :
  String.prefix "/" b = false ->
  b = u +:+ ".mp4" ->
  exists u', os_path_join a b = u' +:+ ".mp4".
Proof.
  intros Hp ->. unfold os_path_join. rewrite Hp.
  destruct (_ || _)%bool.
  - exists (a +:+ u). by rewrite append_assoc.
  - exists (a +:+ "/" +:+ u). by rewrite !append_assoc.
Qed.

Lemma merge_output_mp4 (self : Orchestrator) :
  exists u, merge_output self = u +:+ ".mp4".
Proof.
  unfold merge_output, final_video, chapter_video, chapter_shorts_video.
  destruct (pm self) as [p|c]; [|destruct (shorts_mode self)].
  - apply (os_path_join_mp4 _ _ ("master_" +:+ pm_run_id p)); [done|].
    by rewrite append_assoc.
  - by apply (os_path_join_mp4 _ _ "chapter_shorts").
  - by apply (os_path_join_mp4 _ _ "chapter").
Qed.

Lemma merge_output_cta_distinct (self : Orchestrator) :
  str_replace ".mp4" "_cta.mp4" (merge_output self) <> merge_output self.
Proof.
  destruct (merge_output_mp4 self) as [u ->].
  apply str_replace_changes; simpl; lia.
Qed.

(** ** The end-card compositor *)

Section Compositor.

Context (engine : Cmd -> gmap string file -> EngineResult).

(** C10. The end-card compositor never fails the merge.  On the path the
    merger hands it, it always returns that same path.  When the end-card
    asset is missing nothing happens at all; when the engine fails, or
    succeeds without leaving an overlay file, the merged video is the file
    it was before (and after an engine failure no overlay file is left);
    only when the engine succeeds and leaves an overlay file does that file
    take the place of the merged video. *)
Theorem cta_overlay_never_fails (self : Orchestrator) (is_shorts : bool) (st : State) :
  let video_path := merge_output self in
  let output_path := str_replace ".mp4" "_cta.mp4" video_path in
  let duration := get_duration video_path st in
  let cmd :=
    CmdCtaOverlay video_path cta_path (if is_shorts then 860 else 640)
      (if is_shorts then "H-h-550" else "H-h-140")
      (max0 (duration - 5.0)%float) duration output_path in
  let r := engine cmd (fs st) in
  let overlaid := match written r with Some f => Some f | None => fs st !! output_path end in
  let out := (_apply_universal_cta engine video_path is_shorts st).1 in
  let st' := (_apply_universal_cta engine video_path is_shorts st).2 in
  out = video_path /\
  (fs st !! cta_path = None -> st' = st) /\
  (is_Some (fs st !! cta_path) -> exit_ok r = false ->
     fs st' !! video_path = fs st !! video_path /\ fs st' !! output_path = None) /\
  (is_Some (fs st !! cta_path) -> exit_ok r = true -> overlaid = None ->
     fs st' !! video_path = fs st !! video_path) /\
  (is_Some (fs st !! cta_path) -> exit_ok r = true ->
     forall f, overlaid = Some f -> fs st' !! video_path = Some f).
Proof.
  intros video_path output_path duration cmd r overlaid out st'.
  assert (Hne : output_path <> video_path) by apply merge_output_cta_distinct.
  subst out st'. unfold _apply_universal_cta.
  fold output_path duration. unfold run_cmd. fold cmd r. simpl cmd_output.
  set (st1 := {| fs := _; log := _ |}).
  assert (H1 : fs st1 !! output_path = overlaid).
  { subst st1 overlaid. simpl. destruct (written r); [apply lookup_insert_eq|done]. }
  assert (H1v : fs st1 !! video_path = fs st !! video_path).
  { subst st1. simpl. destruct (written r); [by apply lookup_insert_ne|done]. }
  destruct (exists_ cta_path st) eqn:Hcta; simpl.
  - apply exists_true in Hcta.
    destruct (exit_ok r) eqn:Hr.
    + unfold shutil_move. rewrite H1.
      destruct overlaid as [f|] eqn:Hov; simpl.
      * split; [done|]. split; [intros Hn; rewrite Hn in Hcta; by destruct Hcta|].
        split; [done|]. split; [done|].
        intros _ _ f' [= <-]. apply lookup_insert_eq.
      * split; [done|]. split; [intros Hn; rewrite Hn in Hcta; by destruct Hcta|].
        split; [done|]. split; [done|]. done.
    + split; [by destruct (exists_ output_path st1)|].
      split; [intros Hn; rewrite Hn in Hcta; by destruct Hcta|].
      split; [|done].
      intros _ _. destruct (exists_ output_path st1) eqn:Hex; simpl.
      * split; [by rewrite lookup_delete_ne|apply lookup_delete_eq].
      * apply exists_false in Hex. split; [exact H1v|exact Hex].
  - apply exists_false in Hcta. split; [done|]. split; [done|].
    split; [|split]; intros [? Hs]; rewrite Hcta in Hs; done.
Qed.

End Compositor.

(** ** The chapter merger *)

Section Merger.

Context (engine : Cmd -> gmap string file -> EngineResult).

Lemma clip_ids_spec (self : Orchestrator) (st : State) (i : Z) :
  i ∈ clip_ids self st <->
  exists scene clip,
    scene ∈ scenes self /\ id scene = i /\
    fs st !! get_clip_path (pm self) i (shorts_mode self) = Some clip /\
    1024 < fsize clip.
Proof.
  unfold clip_ids. rewrite list_elem_of_fmap. split.
  - intros (scene & -> & Hin). apply list_elem_of_In, filter_In in Hin as [Hin Hbig].
    apply exists_larger_spec in Hbig as (clip & Hclip & Hsize).
    exists scene, clip. by rewrite list_elem_of_In.
  - intros (scene & clip & Hin & <- & Hclip & Hsize). exists scene. split; [done|].
    apply list_elem_of_In, filter_In. split; [by apply list_elem_of_In|].
    apply exists_larger_spec. eauto.
Qed.

Lemma normalize_loop_log (self : Orchestrator) (ids : list Z) (st st1 : State) (ok : bool) :
  normalize_loop engine self (os_path_join (render_dir self) "_normalized") ids st = (ok, st1) ->
  exists done rs,
    log st1 = log st ++ zip (map (norm_cmd self) done) rs /\
    length rs = length done /\
    done `prefix_of` ids /\
    (ok = true -> done = ids /\ Forall (fun r => exit_ok r = true) rs).
Proof.
  revert st. induction ids as [|idx ids IH]; intros st; simpl.
  - intros [= <- <-]. exists [], []. rewrite app_nil_r. done.
  - unfold run_cmd. set (c := CmdNormalize _ _). set (r := engine c (fs st)).
    destruct (exit_ok r) eqn:Hr; simpl.
    + intros (done & rs & Hlog & Hlen & Hpre & Hok)%IH.
      exists (idx :: done), (r :: rs). simpl in Hlog. rewrite <- app_assoc in Hlog.
      split; [done|]. split; [simpl; lia|]. split; [by apply prefix_cons|].
      intros [-> Hall]%Hok. split; [done|by constructor].
    + intros [= <- <-]. exists [idx], [r].
      split; [done|]. split; [done|]. split; [|done].
      by apply prefix_cons, prefix_nil.
Qed.

Lemma cta_log (video_path : string) (is_shorts : bool) (st : State) :
  exists tail,
    log (_apply_universal_cta engine video_path is_shorts st).2 = log st ++ tail /\
    Forall (fun cr => is_normalize cr.1 = false) tail /\
    (_apply_universal_cta engine video_path is_shorts st).1 = video_path.
Proof.
  unfold _apply_universal_cta.
  destruct (negb (exists_ cta_path st)).
  { exists []. by rewrite app_nil_r. }
  unfold run_cmd. set (c := CmdCtaOverlay _ _ _ _ _ _ _). set (r := engine c (fs st)).
  set (st1 := {| fs := _; log := _ |}).
  exists [(c, r)]. split; [|split; [by repeat constructor|]].
  - destruct (exit_ok r).
    + unfold shutil_move. by destruct (fs st1 !! _).
    + by destruct (exists_ _ st1).
  - destruct (exit_ok r); [|done]. by destruct (shutil_move _ _ st1).
Qed.

(** The engine invocations of one [merge_clips] call: normalizations of a
    prefix of the sorted clip ids, then at most a concatenation and an
    overlay; on a returned output, all of the ids and the concatenation. *)
Lemma merge_clips_log (self : Orchestrator) (st : State) :
  let norm_concat :=
    os_path_join (os_path_join (render_dir self) "_normalized") "concat_list.txt" in
  exists done rs tail,
    log (merge_clips engine self st).2 = log st ++ zip (map (norm_cmd self) done) rs ++ tail /\
    length rs = length done /\
    done `prefix_of` sorted (clip_ids self st) /\
    Forall (fun cr => is_normalize cr.1 = false) tail /\
    (forall output, (merge_clips engine self st).1 = Some output ->
       output = merge_output self /\ clip_ids self st <> [] /\
       done = sorted (clip_ids self st) /\
       Forall (fun r => exit_ok r = true) rs /\
       exists r tail',
         tail = (CmdConcat norm_concat (merge_output self), r) :: tail' /\
         exit_ok r = true).
Proof.
  intros norm_concat. unfold merge_clips.
  destruct (clip_ids self st) as [|i ids] eqn:Hids.
  { exists [], [], []. simpl. rewrite app_nil_r.
    split; [done|]. split; [done|]. split; [apply prefix_nil|].
    split; [constructor|]. intros ? [=]. }
  rewrite <- Hids.
  destruct (normalize_loop engine self _ (sorted (clip_ids self st)) st) as [ok st1] eqn:Hnorm.
  destruct (normalize_loop_log _ _ _ _ _ Hnorm) as (done & rs & Hlog & Hlen & Hpre & Hok).
  exists done, rs.
  destruct ok; simpl negb; cbv iota.
  2:{ exists []. simpl. rewrite app_nil_r.
      split; [done|]. split; [done|]. split; [done|].
      split; [constructor|]. intros ? [=]. }
  destruct (Hok eq_refl) as [-> Hall].
  fold norm_concat. unfold run_cmd. simpl fs. simpl log.
  set (c := CmdConcat norm_concat (merge_output self)).
  set (r := engine c _). set (st3 := {| fs := _; log := _ |}).
  destruct (exit_ok r) eqn:Hr.
  2:{ exists [(c, r)]. simpl. rewrite Hlog.
      split; [by rewrite <- app_assoc|]. split; [done|]. split; [done|].
      split; [by repeat constructor|]. intros ? [=]. }
  assert (Hlog3 : log (shutil_rmtree (os_path_join (render_dir self) "_normalized") st3)
                  = log st ++ zip (map (norm_cmd self) (sorted (clip_ids self st))) rs ++ [(c, r)]).
  { simpl. rewrite Hlog. by rewrite <- app_assoc. }
  destruct (wants_cta self).
  - destruct (cta_log (merge_output self) (shorts_mode self)
                (shutil_rmtree (os_path_join (render_dir self) "_normalized") st3))
      as (tail & Htail & Hnn & Hout).
    destruct (_apply_universal_cta _ _ _ _) as [out st5].
    cbn [fst snd] in Htail, Hout. subst out.
    exists ((c, r) :: tail). simpl.
    split; [rewrite Htail, Hlog3; by rewrite <- !app_assoc|].
    split; [done|]. split; [done|]. split; [by constructor|].
    intros output [= <-].
    split; [done|]. split; [by rewrite Hids|]. split; [done|]. split; [done|]. eauto.
  - exists [(c, r)]. simpl. split; [exact Hlog3|].
    split; [done|]. split; [done|]. split; [by repeat constructor|].
    intros output [= <-].
    split; [done|]. split; [by rewrite Hids|]. split; [done|]. split; [done|]. eauto.
Qed.

Lemma cta_log_no_concat (video_path : string) (is_shorts : bool) (st : State) :
  exists tail,
    log (_apply_universal_cta engine video_path is_shorts st).2 = log st ++ tail /\
    forall nc out r, (CmdConcat nc out, r) ∉ tail.
Proof.
  unfold _apply_universal_cta.
  destruct (negb (exists_ cta_path st)).
  { exists []. rewrite app_nil_r. split; [done|]. by intros ? ? ? ?%elem_of_nil. }
  unfold run_cmd. set (c := CmdCtaOverlay _ _ _ _ _ _ _). set (r := engine c (fs st)).
  set (st1 := {| fs := _; log := _ |}).
  exists [(c, r)]. split.
  - destruct (exit_ok r).
    + unfold shutil_move. by destruct (fs st1 !! _).
    + by destruct (exists_ _ st1).
  - intros nc out r' Hin%list_elem_of_singleton. discriminate Hin.
Qed.

(** The concatenation of one [merge_clips] call: it comes after a
    successful normalization of every admitted id, and the list file the
    engine reads names the normalized copies of exactly these ids, in
    ascending order. *)
Lemma merge_clips_concat (self : Orchestrator) (st : State) (nc out : string)
  (r : EngineResult) :
  let norm_concat :=
    os_path_join (os_path_join (render_dir self) "_normalized") "concat_list.txt" in
  let ids := sorted (clip_ids self st) in
  (CmdConcat nc out, r) ∈ drop (length (log st)) (log (merge_clips engine self st).2) ->
  nc = norm_concat /\ out = merge_output self /\
  (exists disk,
     r = engine (CmdConcat nc out) disk /\
     flines <$> disk !! nc = Some (map (fun idx => "file '" +:+ clip_name idx +:+ "'") ids)) /\
  exists rs tail,
    log (merge_clips engine self st).2
      = log st ++ zip (map (norm_cmd self) ids) rs ++ (CmdConcat nc out, r) :: tail /\
    length rs = length ids /\
    Forall (fun r => exit_ok r = true) rs.
Proof.
  intros norm_concat ids. subst ids. unfold merge_clips.
  destruct (clip_ids self st) as [|i0 ids0] eqn:Hids.
  { simpl. rewrite drop_all. by intros ?%elem_of_nil. }
  rewrite <- Hids. set (ids := sorted (clip_ids self st)).
  destruct (normalize_loop engine self _ ids st) as [ok st1] eqn:Hnorm.
  destruct (normalize_loop_log _ _ _ _ _ Hnorm) as (done & rs & Hlog & Hlen & Hpre & Hok).
  assert (Hzip : forall nc out r, (CmdConcat nc out, r) ∉ zip (map (norm_cmd self) done) rs).
  { intros nc' out' r' Hin. apply elem_of_zip_l, list_elem_of_fmap in Hin as (i & Hi & _).
    discriminate Hi. }
  destruct ok; simpl negb; cbv iota.
  2:{ simpl. rewrite Hlog, drop_app_length. intros Hin. by apply Hzip in Hin. }
  destruct (Hok eq_refl) as [-> Hall].
  fold norm_concat. unfold run_cmd. simpl fs. simpl log.
  set (c := CmdConcat norm_concat (merge_output self)).
  set (disk2 := <[norm_concat := _]> (fs st1)).
  set (r2 := engine c disk2). set (st3 := {| fs := _; log := _ |}).
  assert (Hread : flines <$> disk2 !! norm_concat
                  = Some (map (fun idx => "file '" +:+ clip_name idx +:+ "'") ids)).
  { subst disk2. by rewrite lookup_insert_eq. }
  assert (Hend : forall tail,
    (forall nc out r, (CmdConcat nc out, r) ∉ tail) ->
    (CmdConcat nc out, r) ∈ drop (length (log st))
       (log st ++ zip (map (norm_cmd self) ids) rs ++ (c, r2) :: tail) ->
    nc = norm_concat /\ out = merge_output self /\
    (exists disk,
       r = engine (CmdConcat nc out) disk /\
       flines <$> disk !! nc = Some (map (fun idx => "file '" +:+ clip_name idx +:+ "'") ids)) /\
    exists rs' tail',
      log st ++ zip (map (norm_cmd self) ids) rs ++ (c, r2) :: tail
        = log st ++ zip (map (norm_cmd self) ids) rs' ++ (CmdConcat nc out, r) :: tail' /\
      length rs' = length ids /\
      Forall (fun r => exit_ok r = true) rs').
  { intros tail Htail. rewrite drop_app_length.
    intros [Hin|[Hin|Hin]%elem_of_cons]%elem_of_app.
    - by apply Hzip in Hin.
    - injection Hin as -> -> ->. split; [done|]. split; [done|]. split; [by exists disk2|].
      by exists rs, tail.
    - by apply Htail in Hin. }
  destruct (exit_ok r2) eqn:Hr.
  2:{ simpl. rewrite Hlog, <- app_assoc. apply Hend. by intros ? ? ? ?%elem_of_nil. }
  destruct (wants_cta self).
  - destruct (cta_log_no_concat (merge_output self) (shorts_mode self)
                (shutil_rmtree (os_path_join (render_dir self) "_normalized") st3))
      as (tail & Htail & Hnc).
    destruct (_apply_universal_cta _ _ _ _) as [out5 st5]. cbn [fst snd] in Htail |- *.
    rewrite Htail. simpl. rewrite Hlog, <- !app_assoc. simpl. by apply Hend.
  - simpl. rewrite Hlog, <- app_assoc. apply Hend. by intros ? ? ? ?%elem_of_nil.
Qed.

(** C1 (as the code has it). A chapter output is produced from the clips
    that are on disk: when [merge_clips] returns an output, it is the
    merger's output path, at least one scene had a clip of more than 1024
    bytes, and the engine ran, successfully, one normalization for each
    such scene id, in ascending id order, and then the concatenation, on
    a disk whose list file names the normalized copies of exactly these
    ids, in the same ascending order; scenes without such a clip take no
    part. *)
Theorem merge_output_from_clips_on_disk (self : Orchestrator) (st st' : State) (output : string) :
  let norm_concat :=
    os_path_join (os_path_join (render_dir self) "_normalized") "concat_list.txt" in
  merge_clips engine self st = (Some output, st') ->
  output = merge_output self /\
  clip_ids self st <> [] /\
  Sorted Z.le (sorted (clip_ids self st)) /\
  sorted (clip_ids self st) ≡ₚ clip_ids self st /\
  exists rs r tail disk,
    log st' =
      log st ++ zip (map (norm_cmd self) (sorted (clip_ids self st))) rs ++
      (CmdConcat norm_concat output, r) :: tail /\
    length rs = length (clip_ids self st) /\
    Forall (fun r => exit_ok r = true) rs /\
    exit_ok r = true /\
    Forall (fun cr => is_normalize cr.1 = false) tail /\
    r = engine (CmdConcat norm_concat output) disk /\
    flines <$> disk !! norm_concat
      = Some (map (fun idx => "file '" +:+ clip_name idx +:+ "'") (sorted (clip_ids self st))).
Proof.
  intros norm_concat Hmerge.
  destruct (merge_clips_log self st) as (done & rs & tail & Hlog & Hlen & _ & Hnn & Hsome).
  rewrite Hmerge in Hlog, Hsome. simpl in Hlog, Hsome.
  destruct (Hsome output eq_refl) as (-> & Hne & -> & Hall & r & tail' & -> & Hr).
  destruct (merge_clips_concat self st norm_concat (merge_output self) r)
    as (_ & _ & (disk & Hdisk & Hlines) & _).
  { rewrite Hmerge. cbn [snd]. rewrite Hlog, drop_app_length.
    apply elem_of_app. right. apply list_elem_of_here. }
  split; [done|]. split; [done|].
  split; [apply (Sorted_merge_sort Z.le)|].
  split; [apply merge_sort_Permutation|].
  exists rs, r, tail', disk. split; [done|].
  split; [rewrite Hlen; apply Permutation_length, merge_sort_Permutation|].
  split; [done|]. split; [done|]. split; [by inversion Hnn|]. done.
Qed.

(** C4 (as the code has it). The merger admits exactly the scene ids
    whose clip is on disk with more than 1024 bytes (1 KiB): only their
    clips are normalized, and when there is none the merge returns [None]
    at once, with no engine invocation and the disk untouched.  A
    concatenation is run only after every admitted id was normalized
    successfully, and the list file it reads names the normalized copies
    of the admitted ids and of no other, in ascending id order. *)
Theorem merge_admits_clips_over_1KiB (self : Orchestrator) (st : State) :
  (forall i, i ∈ clip_ids self st <->
     exists scene clip,
       scene ∈ scenes self /\ id scene = i /\
       fs st !! get_clip_path (pm self) i (shorts_mode self) = Some clip /\
       1024 < fsize clip) /\
  (clip_ids self st = [] -> merge_clips engine self st = (None, st)) /\
  (forall src dst r,
     (CmdNormalize src dst, r) ∈ drop (length (log st)) (log (merge_clips engine self st).2) ->
     exists i, i ∈ clip_ids self st /\ CmdNormalize src dst = norm_cmd self i) /\
  (forall norm_concat output r,
     (CmdConcat norm_concat output, r)
       ∈ drop (length (log st)) (log (merge_clips engine self st).2) ->
     norm_concat
       = os_path_join (os_path_join (render_dir self) "_normalized") "concat_list.txt" /\
     output = merge_output self /\
     sorted (clip_ids self st) ≡ₚ clip_ids self st /\
     (exists disk,
        r = engine (CmdConcat norm_concat output) disk /\
        flines <$> disk !! norm_concat
          = Some (map (fun idx => "file '" +:+ clip_name idx +:+ "'")
                    (sorted (clip_ids self st)))) /\
     exists rs tail,
       log (merge_clips engine self st).2
         = log st ++ zip (map (norm_cmd self) (sorted (clip_ids self st))) rs ++
           (CmdConcat norm_concat output, r) :: tail /\
       length rs = length (sorted (clip_ids self st)) /\
       Forall (fun r => exit_ok r = true) rs).
Proof.
  split; [apply clip_ids_spec|]. split; [|split].
  - intros Hnone. unfold merge_clips. by rewrite Hnone.
  - intros src dst r Hin.
    destruct (merge_clips_log self st) as (done & rs & tail & Hlog & Hlen & Hpre & Hnn & _).
    rewrite Hlog, drop_app_length in Hin.
    apply elem_of_app in Hin as [Hin|Hin].
    + apply elem_of_zip_l, list_elem_of_fmap in Hin as (i & Hi & Hdone).
      exists i. split; [|done].
      rewrite <- (merge_sort_Permutation Z.le (clip_ids self st)).
      by eapply elem_of_prefix.
    + rewrite Forall_forall in Hnn. by specialize (Hnn _ Hin).
  - intros norm_concat output r Hin.
    destruct (merge_clips_concat self st norm_concat output r Hin)
      as (Hnc & Hout & Hdisk & Hlog).
    split; [done|]. split; [done|]. split; [apply merge_sort_Permutation|]. done.
Qed.

End Merger.

(** ** Examples for the merger and the compositor *)

(** C1, refuted as stated: with a clip for scene 1 only, the merge still
    returns a chapter output. *)
Lemma partial_merge_produces_output :
  ~ merge_covers_all_scenes engine_ok giant partial_disk.
Proof.
  intros H.
  assert (E : merge_clips engine_ok giant partial_disk =
              (Some (merge_output giant), (merge_clips engine_ok giant partial_disk).2))
    by (vm_compute; reflexivity).
  specialize (H _ _ E (mk_scene 2 "David picked up five smooth stones" ["DAVID"] None)).
  destruct H as [f Hf].
  - apply list_elem_of_further, list_elem_of_here.
  - vm_compute in Hf. discriminate Hf.
Qed.

Lemma merge_output_from_clips_on_disk_witness :
  let st' := (merge_clips engine_ok giant partial_disk).2 in
  let norm_concat :=
    os_path_join (os_path_join (render_dir giant) "_normalized") "concat_list.txt" in
  merge_output giant = merge_output giant /\
  clip_ids giant partial_disk <> [] /\
  Sorted Z.le (sorted (clip_ids giant partial_disk)) /\
  sorted (clip_ids giant partial_disk) ≡ₚ clip_ids giant partial_disk /\
  exists rs r tail disk,
    log st' =
      log partial_disk ++
      zip (map (norm_cmd giant) (sorted (clip_ids giant partial_disk))) rs ++
      (CmdConcat norm_concat (merge_output giant), r) :: tail /\
    length rs = length (clip_ids giant partial_disk) /\
    Forall (fun r => exit_ok r = true) rs /\
    exit_ok r = true /\
    Forall (fun cr => is_normalize cr.1 = false) tail /\
    r = engine_ok (CmdConcat norm_concat (merge_output giant)) disk /\
    flines <$> disk !! norm_concat
      = Some (map (fun idx => "file '" +:+ clip_name idx +:+ "'")
                (sorted (clip_ids giant partial_disk))).
Proof.
  exact (merge_output_from_clips_on_disk engine_ok giant partial_disk
           (merge_clips engine_ok giant partial_disk).2 (merge_output giant) eq_refl).
Defined.

(** C4, refuted as stated: a clip of 2048 bytes is admitted although it
    is not above 1 MiB, and although no scene has a clip above 1 MiB the
    merge does not fail. *)
Lemma small_clip_is_admitted :
  ~ merge_admits_only_1MiB_clips giant small_clip_disk /\
  (forall scene, scene ∈ scenes giant ->
     exists_larger (get_clip_path (pm giant) (id scene) (shorts_mode giant))
       (1024 * 1024) small_clip_disk = false) /\
  (merge_clips engine_ok giant small_clip_disk).1 = Some (merge_output giant).
Proof.
  split; [|split].
  - intros H. specialize (H 1).
    assert (Hin : 1 ∈ clip_ids giant small_clip_disk)
      by (vm_compute; apply list_elem_of_here).
    specialize (H Hin). vm_compute in H. discriminate H.
  - intros scene Hin. unfold giant in Hin. simpl in Hin.
    apply elem_of_cons in Hin as [->|Hin]; [reflexivity|].
    apply elem_of_cons in Hin as [->|Hin]; [reflexivity|].
    by apply elem_of_nil in Hin.
  - vm_compute. reflexivity.
Qed.

(** An empty chapter directory: no clip, so the merge fails at once. *)
Example merge_without_clips :
  merge_clips engine_ok giant (on_disk []) = (None, on_disk []).
Proof. reflexivity. Qed.

(** With the asset on disk and a failing engine the merged video is still
    the 60 s file, and the partial overlay file is removed. *)
Example cta_engine_failure_keeps_video :
  let '(out, st') := _apply_universal_cta engine_fail (merge_output giant) false merged_disk in
  out = merge_output giant /\
  fs st' !! out = Some (media 9000000 60) /\
  fs st' !! str_replace ".mp4" "_cta.mp4" out = None /\
  map fst (log st') =
    [ CmdCtaOverlay out cta_path 640 "H-h-140" 55 60 (str_replace ".mp4" "_cta.mp4" out) ].
Proof. vm_compute. done. Qed.

(** With a succeeding engine the overlaid file takes its place. *)
Example cta_success_replaces_video :
  let '(out, st') := _apply_universal_cta engine_ok (merge_output giant) false merged_disk in
  out = merge_output giant /\
  fs st' !! out = Some (media 2097152 5) /\
  fs st' !! str_replace ".mp4" "_cta.mp4" out = None.
Proof. vm_compute. done. Qed.

(** Without the asset on disk the merged video is returned as it is. *)
Example cta_asset_missing :
  _apply_universal_cta engine_ok (merge_output giant) false partial_disk
  = (merge_output giant, partial_disk).
Proof. reflexivity. Qed.

(** ** The scene matcher *)

Lemma best_match_scan (score_of : Source -> float) (used : gset (Z * Z)) (b0 : float)
  (rest seen : list Source) (b : float) (bs : option Source) :
  scan_inv (penalized score_of used) b0 seen b bs ->
  scan_inv (penalized score_of used) b0 (seen ++ rest)
    (best_match score_of used rest b bs).1 (best_match score_of used rest b bs).2.
Proof.
  revert seen b bs. induction rest as [|src rest IH]; intros seen b bs Hinv.
  { by rewrite app_nil_r. }
  simpl. fold (penalized score_of used src).
  set (pen := penalized score_of used) in *.
  replace (seen ++ src :: rest) with ((seen ++ [src]) ++ rest)
    by (by rewrite <- app_assoc).
  destruct Hinv as [Hmax Hbest].
  destruct (PrimFloat.ltb b (pen src)) eqn:Hlt; apply IH; split.
  - (* the new best is not beaten by anything seen *)
    intros s [Hs|Hs%list_elem_of_singleton]%elem_of_app.
    + apply not_true_is_false. intros Hc.
      pose proof (FloatOrder.ltb_trans _ _ _ Hlt Hc) as Hbc.
      by rewrite (Hmax s Hs) in Hbc.
    + subst s. apply FloatOrder.ltb_irrefl.
  - split.
    + destruct bs as [best|].
      * destruct Hbest as [Hb0 _]. by eapply FloatOrder.ltb_trans.
      * by subst b.
    + exists (length seen). split; [by rewrite list_lookup_middle|]. split; [done|].
      intros j s Hj Hs. rewrite lookup_app_l in Hs by done.
      apply not_true_is_false. intros Hc.
      pose proof (FloatOrder.ltb_leb_trans _ _ _ Hlt Hc) as Hbc.
      rewrite (Hmax s) in Hbc; [done|]. by eapply list_elem_of_lookup_2.
  - intros s [Hs|Hs%list_elem_of_singleton]%elem_of_app; [by apply Hmax|by subst s].
  - destruct bs as [best|]; [|done].
    destruct Hbest as [Hb0 (i & Hi & Hb & Hearlier)]. split; [done|].
    exists i. split; [by apply lookup_app_l_Some|]. split; [done|].
    intros j s Hj Hs. apply (Hearlier j s Hj).
    rewrite lookup_app_l in Hs; [done|].
    apply lookup_lt_Some in Hi. lia.
Qed.

Section MatcherFacts.

Context (ratio : string -> string -> float) (round3 : float -> float).




End MatcherFacts.

(** ** Slots, manual overrides and the audit list *)

Section Assembly.

Context (ratio : string -> string -> float) (round3 : float -> float).




End Assembly.

(** ** Examples for the matcher *)

(** Without a manual map the slot goes to scene 1 of chapter 1, whose
    narration, characters and keywords all agree with the slot's. *)
Example auto_assigns_best_source :
  option_map saved_mapping
    (assemble_intro ratio_exact no_rounding intro david [] david_scripts story_disk)
  = Some (Some [ AutoRecord 1 "The giant cursed and mocked the frightened soldiers"
                   1 "The Giant" 1
                   "The giant cursed and mocked the frightened soldiers" 1%float ]).
Proof. vm_compute. reflexivity. Qed.

(** With the curated entry the same slot goes to scene 5 of chapter 2,
    although scene 1 of chapter 1 scores [1.0]. *)
Example curated_entry_is_assigned :
  option_map saved_mapping
    (assemble_intro ratio_exact no_rounding intro david curated david_scripts story_disk)
  = Some (Some [ ManualRecord 1 "The giant cursed and mocked the frightened soldiers"
                   2 5 "opening shot" ]).
Proof. vm_compute. reflexivity. Qed.



(** The whole run stops there: nothing is returned and no list is
    saved. *)
Example own_video_entry_stops_the_run :
  assemble_intro ratio_exact no_rounding intro david self_reference david_scripts
    own_video_disk = None.
Proof. vm_compute. reflexivity. Qed.


(** ** More on the renderer and the merger *)

Lemma get_clip_path_mp4 (pm : path_manager) (scene_id : Z) (shorts : bool) :
  exists u, get_clip_path pm scene_id shorts = u +:+ ".mp4".
Proof.
  unfold get_clip_path.
  apply (os_path_join_mp4 _ _ ("clip_" +:+ fmt_0d 3 scene_id)); [done|].
  by rewrite append_assoc.
Qed.

Lemma temp_path_distinct (pm : path_manager) (scene_id : Z) (shorts : bool) :
  str_replace ".mp4" "_temp.mp4" (get_clip_path pm scene_id shorts)
  <> get_clip_path pm scene_id shorts.
Proof.
  destruct (get_clip_path_mp4 pm scene_id shorts) as [u ->].
  apply str_replace_changes; simpl; lia.
Qed.

Section RenderOutcome.

Context (engine : Cmd -> gmap string file -> EngineResult).

Lemma render_scene_skips (self : Orchestrator) (scene_id : Z) (st : State) :
  exists_larger (get_clip_path (pm self) scene_id (shorts_mode self)) (1024 * 1024) st = true ->
  render_scene engine self scene_id st = (true, st).
Proof. intros H. unfold render_scene. by rewrite H. Qed.

Lemma burn_subtitles_leaves_output n temp_path vtt_path output_path st st' tmp :
  engine_writes_over engine n ->
  temp_path <> output_path ->
  fs st !! temp_path = Some tmp -> n < fsize tmp ->
  burn_subtitles engine temp_path vtt_path output_path st = (true, st') ->
  exists f, fs st' !! output_path = Some f /\ n < fsize f.
Proof.
  intros Heng Hne Htmp Hsize. unfold burn_subtitles.
  destruct (exists_larger vtt_path 10 st).
  - unfold run_cmd. set (c := CmdSubtitles _ _ _). set (r := engine c (fs st)).
    destruct (exit_ok r) eqn:Hr; simpl; [|by destruct (exists_ _ _)].
    destruct (Heng c (fs st) Hr) as (f & Hw & Hf). fold r in Hw. rewrite Hw.
    intros [= <-]. exists f. split; [|done].
    match goal with |- context [exists_ ?p ?s] => destruct (exists_ p s) end; simpl.
    + rewrite lookup_delete_ne by done. apply lookup_insert_eq.
    + apply lookup_insert_eq.
  - assert (exists_ temp_path st = true) as -> by (apply exists_true; eauto).
    intros [= <-]. unfold os_rename. rewrite Htmp. simpl.
    exists tmp. split; [apply lookup_insert_eq|done].
Qed.

Lemma base_then_subtitles_leaves_output n c vtt_path output_path st st' :
  engine_writes_over engine n ->
  cmd_output c <> output_path ->
  (let '(ok, st1) := run_cmd engine c st in
   if negb ok then (false, st1)
   else burn_subtitles engine (cmd_output c) vtt_path output_path st1) = (true, st') ->
  exists f, fs st' !! output_path = Some f /\ n < fsize f.
Proof.
  intros Heng Hne. unfold run_cmd. set (r := engine c (fs st)).
  destruct (exit_ok r) eqn:Hr; simpl; [|done].
  destruct (Heng c (fs st) Hr) as (f & Hw & Hf). fold r in Hw. rewrite Hw.
  apply (burn_subtitles_leaves_output n _ _ _ _ _ f); try done.
  apply lookup_insert_eq.
Qed.

Lemma render_scene_true_clip (self : Orchestrator) (scene_id : Z) (st st' : State) (n : Z) :
  engine_writes_over engine n ->
  n <= 1024 * 1024 ->
  render_scene engine self scene_id st = (true, st') ->
  exists clip,
    fs st' !! get_clip_path (pm self) scene_id (shorts_mode self) = Some clip /\
    n < fsize clip.
Proof.
  intros Heng Hn. unfold render_scene.
  set (output_path := get_clip_path (pm self) scene_id (shorts_mode self)).
  pose proof (temp_path_distinct (pm self) scene_id (shorts_mode self)) as Hne.
  fold output_path in Hne.
  destruct (exists_larger output_path (1024 * 1024) st) eqn:Hdone.
  { intros [= <-]. apply exists_larger_spec in Hdone as (f & Hf & Hsize).
    exists f. split; [done|lia]. }
  destruct (negb (exists_ _ st)); [done|].
  destruct (String.eqb _ "veo").
  { unfold render_veo. destruct (target_size _) as [w h].
    by apply (base_then_subtitles_leaves_output _ (CmdRenderVeo _ _ _ _ _)). }
  destruct (_ && _)%bool.
  { unfold render_mix. destruct (target_size _) as [w h].
    by apply (base_then_subtitles_leaves_output _ (CmdRenderMix _ _ _ _ _ _)). }
  unfold render_tts.
  destruct (negb (exists_ _ st)); [done|].
  destruct (PrimFloat.leb _ 0); [done|].
  destruct (target_size _) as [w h]. destruct (speed_adjust _ _) as [atempo t].
  by apply (base_then_subtitles_leaves_output _ (CmdRenderTTS _ _ _ _ _ _ _ _)).
Qed.

(** A render that reports success has left the clip on disk whenever the
    engine's successful runs leave a file; with runs that leave more than
    1 MiB the next render of the scene is skipped. *)
Theorem render_success_leaves_clip (self : Orchestrator) (scene_id : Z) (st st' : State) :
  engine_writes_over engine (1024 * 1024) ->
  render_scene engine self scene_id st = (true, st') ->
  (exists clip,
     fs st' !! get_clip_path (pm self) scene_id (shorts_mode self) = Some clip /\
     1024 * 1024 < fsize clip) /\
  render_scene engine self scene_id st' = (true, st').
Proof.
  intros Heng Hrender.
  pose proof (render_scene_true_clip self scene_id st st' _ Heng (Z.le_refl _) Hrender)
    as Hclip.
  split; [done|].
  apply render_scene_skips. by apply exists_larger_spec.
Qed.

End RenderOutcome.

(** *** Paths under a common root *)

Lemma prefix_app_cancel (a x y : string) :
  String.prefix (a +:+ x) (a +:+ y) = String.prefix x y.
Proof.
  induction a as [|c a IH]; [done|]. rewrite !append_cons. simpl.
  destruct (Ascii.ascii_dec c c); [done|congruence].
Qed.

(** [os.path.join(a, b)] appends to [a] a separator that depends on [a]
    only, then [b]. *)
Lemma os_path_join_sep (a : string) :
  exists sep, forall b, String.prefix "/" b = false -> os_path_join a b = a +:+ sep +:+ b.
Proof.
  unfold os_path_join. destruct (String.eqb a "" || ends_with "/" a)%bool.
  - exists "". intros b ->. done.
  - exists "/". intros b ->. done.
Qed.

(** The merger's output is not inside the directory of normalized
    copies. *)
Lemma merge_output_outside_normalized (self : Orchestrator) :
  String.prefix (os_path_join (render_dir self) "_normalized" +:+ "/") (merge_output self)
  = false.
Proof.
  unfold merge_output, render_dir, final_video, final_dir, chapter_video,
    chapter_shorts_video, rendered, clips, clips_shorts, root.
  destruct (pm self) as [p|c].
  - destruct (os_path_join_sep (pm_root p)) as [s Hs].
    rewrite (Hs "clips"), (Hs "final") by done.
    destruct (os_path_join_sep (pm_root p +:+ s +:+ "clips")) as [s1 Hs1].
    destruct (os_path_join_sep (pm_root p +:+ s +:+ "final")) as [s2 Hs2].
    rewrite Hs1, Hs2 by done.
    rewrite !append_assoc, !prefix_app_cancel. done.
  - destruct (os_path_join_sep (cpm_root c)) as [s Hs].
    destruct (shorts_mode self).
    + rewrite (Hs "clips_shorts"), (Hs "chapter_shorts.mp4") by done.
      destruct (os_path_join_sep (cpm_root c +:+ s +:+ "clips_shorts")) as [s1 Hs1].
      rewrite Hs1 by done.
      rewrite !append_assoc, !prefix_app_cancel. done.
    + rewrite (Hs "clips"), (Hs "chapter.mp4") by done.
      destruct (os_path_join_sep (cpm_root c +:+ s +:+ "clips")) as [s1 Hs1].
      rewrite Hs1 by done.
      rewrite !append_assoc, !prefix_app_cancel. done.
Qed.

Lemma Permutation_list_filter {A} (f : A -> bool) (l l' : list A) :
  l ≡ₚ l' -> List.filter f l ≡ₚ List.filter f l'.
Proof.
  induction 1 as [|x l l' _ IH|x y l|l1 l2 l3 _ IH1 _ IH2]; simpl.
  - done.
  - destruct (f x); [by constructor|done].
  - destruct (f x), (f y); try done. apply perm_swap.
  - by etrans.
Qed.

Section MergerMore.

Context (engine : Cmd -> gmap string file -> EngineResult).

Lemma run_cmd_keeps c st p :
  is_Some (fs st !! p) -> is_Some (fs (run_cmd engine c st).2 !! p).
Proof.
  unfold run_cmd. simpl. destruct (written _) as [f|]; [|done].
  intros Hp. destruct (decide (p = cmd_output c)) as [->|Hne].
  - rewrite lookup_insert_eq. eauto.
  - by rewrite lookup_insert_ne.
Qed.

Lemma normalize_loop_cons self norm_dir idx ids st :
  normalize_loop engine self norm_dir (idx :: ids) st =
  (let '(ok, st1) :=
     run_cmd engine
       (CmdNormalize (get_clip_path (pm self) idx (shorts_mode self))
          (os_path_join norm_dir (clip_name idx))) st in
   if negb ok then (false, st1) else normalize_loop engine self norm_dir ids st1).
Proof. reflexivity. Qed.

Lemma normalize_loop_keeps self norm_dir ids st p :
  is_Some (fs st !! p) ->
  is_Some (fs (normalize_loop engine self norm_dir ids st).2 !! p).
Proof.
  revert st. induction ids as [|idx ids IH]; intros st Hp; [done|].
  rewrite normalize_loop_cons.
  pose proof (run_cmd_keeps
    (CmdNormalize (get_clip_path (pm self) idx (shorts_mode self))
       (os_path_join norm_dir (clip_name idx))) st p Hp) as Hp1.
  destruct (run_cmd engine _ st) as [ok st1]. simpl in Hp1.
  destruct ok; simpl; [by apply IH|done].
Qed.

Lemma normalize_loop_same_paths self1 self2 norm_dir ids st :
  pm self1 = pm self2 -> shorts_mode self1 = shorts_mode self2 ->
  normalize_loop engine self1 norm_dir ids st = normalize_loop engine self2 norm_dir ids st.
Proof.
  intros Hpm Hsh. revert st. induction ids as [|idx ids IH]; intros st; [done|].
  rewrite !normalize_loop_cons, Hpm, Hsh. destruct (run_cmd engine _ st) as [ok st1].
  destruct ok; simpl; [apply IH|done].
Qed.

(** A failed merge deletes nothing: every file that was on disk when the
    merge started is still on disk when it returns [None] (the rendered
    clips, and also whatever normalized copies, list file and partial
    output the failed attempt wrote). *)
Theorem failed_merge_deletes_nothing (self : Orchestrator) (st st' : State) (p : string) :
  merge_clips engine self st = (None, st') ->
  is_Some (fs st !! p) ->
  is_Some (fs st' !! p).
Proof.
  unfold merge_clips. destruct (clip_ids self st) as [|i ids]; [by intros [= <-]|].
  intros Hmerge Hp. revert Hmerge.
  pose proof (normalize_loop_keeps self (os_path_join (render_dir self) "_normalized")
                (sorted (i :: ids)) st p Hp) as Hp1.
  destruct (normalize_loop engine self _ _ st) as [ok st1]. simpl in Hp1.
  destruct ok; simpl negb; cbv iota; [|by intros [= <-]].
  set (st2 := write_lines _ _ st1).
  assert (Hp2 : is_Some (fs st2 !! p)).
  { subst st2. unfold write_lines. simpl.
    destruct (decide (p = os_path_join (os_path_join (render_dir self) "_normalized")
                            "concat_list.txt")) as [->|Hne].
    - rewrite lookup_insert_eq. eauto.
    - by rewrite lookup_insert_ne. }
  pose proof (run_cmd_keeps
    (CmdConcat (os_path_join (os_path_join (render_dir self) "_normalized") "concat_list.txt")
       (merge_output self)) st2 p Hp2) as Hp3.
  destruct (run_cmd engine _ st2) as [ok st3]. simpl in Hp3.
  destruct ok; [|by intros [= <-]].
  destruct (wants_cta self); [|done].
  by destruct (_apply_universal_cta _ _ _ _).
Qed.

(** The merge does not depend on the order of the scene list: the clips
    are normalized and concatenated in ascending scene-id order, so an
    orchestrator whose scenes are listed in another order runs the same
    commands and returns the same result. *)
Theorem merge_ignores_scene_order (self : Orchestrator) (scenes' : list Scene) (st : State) :
  scenes' ≡ₚ scenes self ->
  merge_clips engine
    {| pm := pm self; scenes := scenes'; shorts_mode := shorts_mode self |} st
  = merge_clips engine self st.
Proof.
  intros Hperm.
  set (self' := {| pm := pm self; scenes := scenes'; shorts_mode := shorts_mode self |}).
  assert (Hids : clip_ids self' st ≡ₚ clip_ids self st).
  { unfold clip_ids. simpl. apply Permutation_map. by apply Permutation_list_filter. }
  assert (Hsorted : sorted (clip_ids self' st) = sorted (clip_ids self st)).
  { apply (Sorted_unique Z.le).
    - apply (Sorted_merge_sort Z.le).
    - apply (Sorted_merge_sort Z.le).
    - unfold sorted. by rewrite !merge_sort_Permutation. }
  unfold merge_clips.
  destruct (clip_ids self st) as [|i ids] eqn:Hself.
  { apply Permutation_nil_r in Hids. by rewrite Hids. }
  destruct (clip_ids self' st) as [|i' ids'] eqn:Hself'.
  { symmetry in Hids. by apply Permutation_nil_r in Hids. }
  rewrite Hsorted.
  change (render_dir self') with (render_dir self).
  change (merge_output self') with (merge_output self).
  change (wants_cta self') with (wants_cta self).
  change (shorts_mode self') with (shorts_mode self).
  by rewrite (normalize_loop_same_paths self' self).
Qed.

Lemma cta_keeps_absent (video_path : string) (is_shorts : bool) (st : State) (p : string) :
  p <> video_path ->
  fs st !! p = None ->
  fs (_apply_universal_cta engine video_path is_shorts st).2 !! p = None.
Proof.
  intros Hne Hp. unfold _apply_universal_cta.
  destruct (negb (exists_ cta_path st)); [done|].
  unfold run_cmd. set (c := CmdCtaOverlay _ _ _ _ _ _ _). set (r := engine c (fs st)).
  simpl cmd_output. set (output_path := str_replace ".mp4" "_cta.mp4" video_path).
  set (st1 := {| fs := _; log := _ |}).
  assert (H1 : p <> output_path -> fs st1 !! p = None).
  { intros Hpo. subst st1. simpl. destruct (written r); [by rewrite lookup_insert_ne|done]. }
  destruct (exit_ok r).
  - unfold shutil_move. destruct (fs st1 !! output_path) as [f|] eqn:Hout; simpl.
    + rewrite lookup_insert_ne by done.
      destruct (decide (p = output_path)) as [->|Hpo].
      * apply lookup_delete_eq.
      * rewrite lookup_delete_ne by done. by apply H1.
    + destruct (decide (p = output_path)) as [->|Hpo]; [done|by apply H1].
  - destruct (exists_ output_path st1) eqn:Hex; simpl.
    + destruct (decide (p = output_path)) as [->|Hpo].
      * apply lookup_delete_eq.
      * rewrite lookup_delete_ne by done. by apply H1.
    + destruct (decide (p = output_path)) as [->|Hpo].
      * apply exists_false in Hex. exact Hex.
      * by apply H1.
Qed.

(** A merge that returns an output has removed the normalized copies: no
    file is left under the [_normalized] directory of the clips
    directory, neither the copies nor the list file. *)
Theorem merge_success_removes_normalized (self : Orchestrator) (st st' : State)
  (output p : string) :
  merge_clips engine self st = (Some output, st') ->
  String.prefix (os_path_join (render_dir self) "_normalized" +:+ "/") p = true ->
  fs st' !! p = None.
Proof.
  unfold merge_clips. destruct (clip_ids self st) as [|i ids]; [done|].
  destruct (normalize_loop engine self _ _ st) as [ok st1].
  destruct ok; simpl negb; cbv iota; [|done].
  destruct (run_cmd engine _ _) as [ok st3].
  destruct ok; [|done].
  intros Hmerge Hp.
  set (norm_dir := os_path_join (render_dir self) "_normalized") in *.
  assert (H4 : fs (shutil_rmtree norm_dir st3) !! p = None).
  { unfold shutil_rmtree. simpl. apply map_lookup_filter_None. right.
    intros f _. simpl. by rewrite Hp. }
  destruct (wants_cta self).
  - assert (Hne : p <> merge_output self).
    { intros ->. pose proof (merge_output_outside_normalized self) as Hout.
      fold norm_dir in Hout. congruence. }
    pose proof (cta_keeps_absent (merge_output self) (shorts_mode self)
                  (shutil_rmtree norm_dir st3) p Hne H4) as H5.
    destruct (_apply_universal_cta _ _ _ _) as [out st5]. simpl in H5.
    by injection Hmerge as _ <-.
  - by injection Hmerge as _ <-.
Qed.

End MergerMore.

Lemma engine_ok_writes_over_1MiB : engine_writes_over engine_ok (1024 * 1024).
Proof. intros c m _. exists (media 2097152 5). split; [reflexivity|reflexivity]. Defined.

Lemma render_success_leaves_clip_witness :
  let st' := (render_scene engine_ok giant 2 short_video_disk).2 in
  (exists clip,
     fs st' !! get_clip_path ch01 2 false = Some clip /\ 1024 * 1024 < fsize clip) /\
  render_scene engine_ok giant 2 st' = (true, st').
Proof.
  exact (render_success_leaves_clip engine_ok giant 2 short_video_disk
           (render_scene engine_ok giant 2 short_video_disk).2
           engine_ok_writes_over_1MiB eq_refl).
Defined.

Lemma failed_merge_deletes_nothing_witness :
  is_Some (fs (merge_clips engine_fail giant both_clips_disk).2
             !! get_clip_path ch01 2 false).
Proof.
  apply (failed_merge_deletes_nothing engine_fail giant both_clips_disk
           (merge_clips engine_fail giant both_clips_disk).2).
  - reflexivity.
  - eexists. reflexivity.
Defined.

Lemma merge_ignores_scene_order_witness :
  merge_clips engine_ok giant_reversed both_clips_disk
  = merge_clips engine_ok giant both_clips_disk.
Proof.
  apply (merge_ignores_scene_order engine_ok giant (rev (scenes giant)) both_clips_disk).
  apply perm_swap.
Defined.

(** Both orders normalize clip 1, then clip 2, then concatenate. *)
Example merge_commands_in_id_order :
  map fst (log (merge_clips engine_ok giant_reversed both_clips_disk).2)
  = [ norm_cmd giant 1; norm_cmd giant 2;
      CmdConcat (os_path_join (os_path_join (render_dir giant) "_normalized") "concat_list.txt")
        (merge_output giant) ].
Proof. vm_compute. reflexivity. Qed.

Lemma merge_success_removes_normalized_witness :
  fs (merge_clips engine_ok giant both_clips_disk).2
    !! os_path_join (os_path_join (render_dir giant) "_normalized") (clip_name 1) = None.
Proof.
  apply (merge_success_removes_normalized engine_ok giant both_clips_disk
           (merge_clips engine_ok giant both_clips_disk).2 (merge_output giant)).
  - reflexivity.
  - reflexivity.
Defined.

(** ** More on the matcher *)

Lemma lower_ascii_idem (c : Ascii.ascii) : lower_ascii (lower_ascii c) = lower_ascii c.
Proof. by destruct c as [[] [] [] [] [] [] [] []]. Qed.

Lemma lower_idem (s : string) : lower (lower s) = lower s.
Proof. induction s as [|c s IH]; simpl; [done|]. by rewrite lower_ascii_idem, IH. Qed.

Lemma lower_append (s t : string) : lower (s +:+ t) = lower s +:+ lower t.
Proof.
  induction s as [|c s IH]; [done|]. rewrite append_cons. simpl.
  by rewrite append_cons, IH.
Qed.

Lemma extract_keywords_lower (prompt : VideoPrompt) (text : string) :
  _extract_keywords (lower_prompt prompt) (lower text) = _extract_keywords prompt text.
Proof.
  unfold _extract_keywords, lower_prompt. simpl.
  by rewrite !lower_append, !lower_idem.
Qed.

Lemma map_lower_lower (l : list string) : map lower (map lower l) = map lower l.
Proof. induction l as [|x l IH]; simpl; [done|]. by rewrite lower_idem, IH. Qed.

(** Matching is blind to letter case: the score of a slot against a source
    is the score of the two with every narration, character id and prompt
    field put in lower case. *)
Theorem match_score_ignores_case (ratio : string -> string -> float)
  (intro_narr : string) (intro_chars : list string) (intro_prompt : VideoPrompt)
  (src_narr : string) (src_chars : list string) (src_prompt : VideoPrompt) :
  _scene_match_score ratio intro_narr intro_chars intro_prompt src_narr src_chars src_prompt
  = _scene_match_score ratio
      (lower intro_narr) (map lower intro_chars) (lower_prompt intro_prompt)
      (lower src_narr) (map lower src_chars) (lower_prompt src_prompt).
Proof.
  unfold _scene_match_score.
  by rewrite !extract_keywords_lower, !map_lower_lower, !lower_idem.
Qed.

Lemma list_ascii_append (s t : string) :
  String.list_ascii_of_string (s +:+ t)
  = String.list_ascii_of_string s ++ String.list_ascii_of_string t.
Proof. induction s as [|c s IH]; [done|]. rewrite append_cons. simpl. by rewrite IH. Qed.

Lemma findall_az_words (s cur w : string) :
  all_az cur -> w ∈ findall_az s cur -> all_az w.
Proof.
  revert cur. induction s as [|c s IH]; intros cur Hcur; simpl.
  - destruct (String.eqb cur ""); [by intros ?%elem_of_nil|].
    by intros ->%list_elem_of_singleton.
  - destruct (is_az c) eqn:Hc.
    + apply IH. unfold all_az. rewrite list_ascii_append. apply Forall_app.
      split; [done|]. by repeat constructor.
    + destruct (String.eqb cur "").
      * apply IH. constructor.
      * intros [->|Hw]%elem_of_cons; [done|]. revert Hw. apply IH. constructor.
Qed.

(** The keywords of a scene are distinct words of at least three
    lower-case letters, none of them a stop word. *)
Theorem extract_keywords_shape (prompt : VideoPrompt) (text : string) :
  NoDup (_extract_keywords prompt text) /\
  forall w, w ∈ _extract_keywords prompt text ->
    all_az w /\ (3 <= String.length w)%nat /\ w ∉ stop_words.
Proof.
  unfold _extract_keywords. split; [apply NoDup_remove_dups|].
  intros w Hw. apply elem_of_remove_dups, list_elem_of_In, filter_In in Hw as [Hw Hkeep].
  apply andb_prop in Hkeep as [Hlen Hstop]. split; [|split].
  - apply list_elem_of_In in Hw.
    refine (findall_az_words _ "" w _ Hw). constructor.
  - apply Nat.ltb_lt in Hlen. lia.
  - apply negb_true_iff, bool_decide_eq_false in Hstop. done.
Qed.

Lemma build_catalog_entries (proj : Project) (scripts : string -> list Scene) (st : State)
  (chs : list Chapter) (source_catalog : list Source) (chapter_pms : gmap Z path_manager) :
  Forall (catalog_entry_ok proj st) source_catalog ->
  Forall (catalog_entry_ok proj st)
    (build_catalog proj scripts st chs source_catalog chapter_pms).1.
Proof.
  revert source_catalog chapter_pms.
  induction chs as [|ch chs IH]; intros source_catalog chapter_pms Hok; [done|].
  simpl. destruct (_ || _)%bool eqn:Hskip; [by apply IH|].
  apply orb_false_elim in Hskip as [H0 H12].
  apply Z.eqb_neq in H0. apply bool_decide_eq_false in H12.
  destruct (get_chapter_pm proj (ch_index ch)) as [ch_pm|] eqn:Hpm; [|by apply IH].
  destruct (negb (exists_ _ st)); [by apply IH|].
  apply IH. apply Forall_app. split; [done|].
  apply Forall_forall. intros src Hsrc.
  apply list_elem_of_fmap in Hsrc as (scene & -> & Hscene).
  apply list_elem_of_In, filter_In in Hscene as [_ Hvideo].
  split; [done|]. split; [|split; [done|by apply exists_true]].
  simpl. intros Heq. apply H12. rewrite Heq. apply list_elem_of_here.
Qed.

Lemma best_match_from_catalog (score_of : Source -> float) (used : gset (Z * Z))
  (catalog : list Source) (best : Source) :
  (best_match score_of used catalog (-1)%float None).2 = Some best ->
  best ∈ catalog.
Proof.
  intros Hbest.
  pose proof (best_match_scan score_of used (-1)%float catalog [] (-1)%float None) as H.
  simpl in H. rewrite Hbest in H.
  destruct H as [_ [_ (i & Hi & _)]]; [by split; [intros ? ?%elem_of_nil|]|].
  by eapply list_elem_of_lookup_2.
Qed.

Section AutoSources.

Context (ratio : string -> string -> float) (round3 : float -> float).

Lemma assemble_loop_auto_from self proj manual_map chapter_pms source_catalog intro_scenes a a' :
  Forall (auto_from source_catalog) (mapping a) ->
  assemble_loop ratio round3 self proj manual_map chapter_pms source_catalog intro_scenes a
    = Some a' ->
  Forall (auto_from source_catalog) (mapping a').
Proof.
  revert a. induction intro_scenes as [|slot slots IH]; intros a Hinv; simpl.
  { by intros [= <-]. }
  destruct (assemble_slot _ _ _ _ _ _ _ _ _) as [a1|] eqn:Hstep; [|done].
  apply IH. revert Hstep. unfold assemble_slot.
  destruct (manual_source _ _ _ _ _) as [[entry src_video]|].
  - destruct (shutil_copy2 _ _ _); [|done]. intros [= <-]. simpl.
    apply Forall_app. split; [done|]. by repeat constructor.
  - destruct (best_match _ _ _ _ _) as [best_score [best|]] eqn:Hbest; [|by intros [= <-]].
    destruct (shutil_copy2 _ _ _); [|done]. intros [= <-]. simpl.
    apply Forall_app. split; [done|]. repeat constructor. intros _.
    exists best. split; [|done].
    apply (best_match_from_catalog (slot_score ratio slot) (used_sources a)).
    by rewrite Hbest.
Qed.

(** Automatic assignments never reuse the intro itself or the outro: every
    record with method [auto] in the saved list names a chapter other than
    0 and 12, one the project knows, and a scene whose video was on disk
    when the run started. *)
Theorem auto_records_skip_intro_and_outro (self : Orchestrator) (proj : Project)
  (manual_entries : list ManualEntry) (scripts : string -> list Scene) (st : State)
  (out : Assembled) (m : list MatchRecord) (r : MatchRecord) :
  assemble_intro ratio round3 self proj manual_entries scripts st = Some out ->
  saved_mapping out = Some m ->
  r ∈ m ->
  method r = "auto" ->
  (record_source r).1 <> 0 /\ (record_source r).1 <> 12 /\
  exists ch_pm,
    get_chapter_pm proj (record_source r).1 = Some ch_pm /\
    is_Some (fs st !! get_scene_video_path ch_pm (record_source r).2 false).
Proof.
  unfold assemble_intro. destruct (scenes self) as [|slot slots] eqn:Hscenes.
  { intros [= <-]. done. }
  pose proof (build_catalog_entries proj scripts st (proj_chapters proj) [] ∅
                ltac:(constructor)) as Hcat.
  destruct (build_catalog proj scripts st (proj_chapters proj) [] ∅)
    as [source_catalog chapter_pms]. simpl in Hcat.
  destruct (assemble_loop _ _ _ _ _ _ _ _ _) as [a|] eqn:Hloop; [|done].
  intros [= <-] [= <-] Hr Hauto.
  apply assemble_loop_auto_from in Hloop; [|constructor].
  rewrite Forall_forall in Hloop. destruct (Hloop r Hr Hauto) as (src & Hsrc & ->).
  rewrite Forall_forall in Hcat. destruct (Hcat src Hsrc) as (H0 & H12 & Hpm & Hvideo).
  simpl. eauto.
Qed.

End AutoSources.

Lemma auto_records_skip_intro_and_outro_witness :
  let r := AutoRecord 1 "The giant cursed and mocked the frightened soldiers" 1 "The Giant" 1
             "The giant cursed and mocked the frightened soldiers" 1%float in
  (record_source r).1 <> 0 /\ (record_source r).1 <> 12 /\
  exists ch_pm,
    get_chapter_pm david (record_source r).1 = Some ch_pm /\
    is_Some (fs story_disk !! get_scene_video_path ch_pm (record_source r).2 false).
Proof.
  assert (Hrun : exists out,
    assemble_intro ratio_exact no_rounding intro david [] david_scripts story_disk = Some out /\
    saved_mapping out =
      Some [ AutoRecord 1 "The giant cursed and mocked the frightened soldiers" 1 "The Giant" 1
               "The giant cursed and mocked the frightened soldiers" 1%float ]).
  { eexists. split; vm_compute; reflexivity. }
  destruct Hrun as (out & Hrun & Hsaved).
  exact (auto_records_skip_intro_and_outro ratio_exact no_rounding intro david []
           david_scripts story_disk out _ _ Hrun Hsaved
           ltac:(apply list_elem_of_here) eq_refl).
Defined.

(** ** The project manager *)

Lemma next_pending_loop_spec (seen chs : list ChapterEntry) (intro : option ChapterEntry) :
  (forall c, c ∈ seen -> is_pending c = true -> is_intro c = true) ->
  match intro with
  | Some i => i ∈ seen /\ is_pending i = true /\ is_intro i = true
  | None => forall c, c ∈ seen -> is_pending c = false
  end ->
  match next_pending_loop chs intro with
  | Some ch =>
      ch ∈ seen ++ chs /\ is_pending ch = true /\
      (is_intro ch = true ->
         forall c, c ∈ seen ++ chs -> is_pending c = true -> is_intro c = true) /\
      (is_intro ch = false ->
         exists pre post, seen ++ chs = pre ++ ch :: post /\
           forall c, c ∈ pre -> is_pending c = true -> is_intro c = true)
  | None => forall c, c ∈ seen ++ chs -> is_pending c = false
  end.
Proof.
  revert seen intro. induction chs as [|ch chs IH]; intros seen intro Hseen Hintro.
  - simpl. rewrite app_nil_r. destruct intro as [i|]; [|done].
    destruct Hintro as (Hi & Hp & Hs). split; [done|]. split; [done|].
    split; [intros _; exact Hseen|]. intros Hc. congruence.
  - simpl. fold (is_pending ch). fold (is_intro ch).
    replace (seen ++ ch :: chs) with ((seen ++ [ch]) ++ chs) by (by rewrite <- app_assoc).
    destruct (is_pending ch) eqn:Hp; simpl.
    + destruct (is_intro ch) eqn:Hs.
      * apply IH.
        -- intros c [Hc|Hc%list_elem_of_singleton]%elem_of_app; [by apply Hseen|by subst c].
        -- split; [apply elem_of_app; right; apply list_elem_of_here|done].
      * split; [by rewrite <- app_assoc; apply elem_of_app; right; apply list_elem_of_here|].
        split; [done|]. split; [congruence|]. intros _.
        exists seen, chs. by rewrite <- app_assoc.
    + apply IH.
      * intros c [Hc|Hc%list_elem_of_singleton]%elem_of_app; [by apply Hseen|].
        subst c. congruence.
      * destruct intro as [i|].
        -- destruct Hintro as (Hi & ? & ?). split; [|done]. apply elem_of_app. by left.
        -- intros c [Hc|Hc%list_elem_of_singleton]%elem_of_app; [by apply Hintro|by subst c].
Qed.

Lemma get_next_pending_pending (p : ProjectManager) (ch : ChapterEntry) :
  get_next_pending p = Some ch ->
  ch ∈ pd_chapters (project_data p) /\ ce_status ch = STATUS_PENDING.
Proof.
  unfold get_next_pending. intros Hnext.
  pose proof (next_pending_loop_spec [] (pd_chapters (project_data p)) None) as H.
  rewrite Hnext in H. simpl in H.
  destruct H as (Hin & Hp & _); [by intros ? ?%elem_of_nil..|].
  split; [done|by apply String.eqb_eq].
Qed.

(** [get_next_pending] keeps the production order: it returns a pending
    chapter, the first pending one that is not the introduction; the
    introduction is returned only when every pending chapter is an
    introduction; and [None] is returned exactly when no chapter is
    pending. *)
Theorem get_next_pending_order (p : ProjectManager) :
  let chapters := pd_chapters (project_data p) in
  match get_next_pending p with
  | Some ch =>
      ch ∈ chapters /\ ce_status ch = STATUS_PENDING /\
      (ce_slug ch = "introduction" ->
         forall c, c ∈ chapters -> ce_status c = STATUS_PENDING -> ce_slug c = "introduction") /\
      (ce_slug ch <> "introduction" ->
         exists pre post, chapters = pre ++ ch :: post /\
           forall c, c ∈ pre -> ce_status c = STATUS_PENDING -> ce_slug c = "introduction")
  | None => forall c, c ∈ chapters -> ce_status c <> STATUS_PENDING
  end.
Proof.
  intros chapters. unfold get_next_pending. fold chapters.
  pose proof (next_pending_loop_spec [] chapters None) as H. simpl in H.
  destruct (next_pending_loop chapters None) as [ch|].
  - destruct H as (Hin & Hp & Hi & Hn); [by intros ? ?%elem_of_nil..|].
    split; [done|]. split; [by apply String.eqb_eq|]. split.
    + intros Hs c Hc Hpc. apply String.eqb_eq.
      apply Hi; [by apply String.eqb_eq|done|by apply String.eqb_eq].
    + intros Hs. destruct Hn as (pre & post & Heq & Hpre); [by apply String.eqb_neq|].
      exists pre, post. split; [done|]. intros c Hc Hpc. apply String.eqb_eq.
      apply Hpre; [done|by apply String.eqb_eq].
  - intros c Hc. apply String.eqb_neq. apply H; [by intros ? ?%elem_of_nil..|done].
Qed.

Lemma set_status_first_spec (chapter_idx : Z) (status : string) (chs : list ChapterEntry) :
  match set_status_first chapter_idx status chs with
  | Some chs' =>
      exists pre ch post,
        chs = pre ++ ch :: post /\ chs' = pre ++ with_status ch status :: post /\
        ce_index ch = chapter_idx /\
        (forall c, c ∈ pre -> ce_index c <> chapter_idx)
  | None => forall c, c ∈ chs -> ce_index c <> chapter_idx
  end.
Proof.
  induction chs as [|ch chs IH]; simpl; [by intros ? ?%elem_of_nil|].
  destruct (ce_index ch =? chapter_idx) eqn:Hidx.
  - apply Z.eqb_eq in Hidx. exists [], ch, chs.
    split; [done|]. split; [done|]. split; [done|]. by intros ? ?%elem_of_nil.
  - apply Z.eqb_neq in Hidx. destruct (set_status_first chapter_idx status chs) as [chs'|]; simpl.
    + destruct IH as (pre & c & post & -> & -> & Hc & Hpre).
      exists (ch :: pre), c, post. split; [done|]. split; [done|]. split; [done|].
      intros c' [->|Hc']%elem_of_cons; [done|by apply Hpre].
    + intros c [->|Hc]%elem_of_cons; [done|by apply IH].
Qed.

Lemma find_index_app (idx : Z) (pre post : list ChapterEntry) (ch : ChapterEntry) :
  (forall c, c ∈ pre -> ce_index c <> idx) ->
  ce_index ch = idx ->
  List.find (fun c => ce_index c =? idx) (pre ++ ch :: post) = Some ch.
Proof.
  intros Hpre Hch. induction pre as [|c pre IH]; simpl.
  - by rewrite (proj2 (Z.eqb_eq _ _) Hch).
  - rewrite (proj2 (Z.eqb_neq _ _) (Hpre c ltac:(apply list_elem_of_here))).
    apply IH. intros c' Hc'. apply Hpre. by apply list_elem_of_further.
Qed.

Lemma find_index_other (idx j : Z) (status : string) (pre post : list ChapterEntry)
  (ch : ChapterEntry) :
  ce_index ch = idx -> j <> idx ->
  List.find (fun c => ce_index c =? j) (pre ++ with_status ch status :: post)
  = List.find (fun c => ce_index c =? j) (pre ++ ch :: post).
Proof.
  intros Hch Hj. induction pre as [|c pre IH]; simpl.
  - rewrite Hch. by rewrite (proj2 (Z.eqb_neq _ _) (not_eq_sym Hj)).
  - by rewrite IH.
Qed.

(** [update_chapter_status] writes the status of the chapter [get_chapter]
    finds and saves the project; looking the chapter up again gives it
    with the new status, every other index looks up as before, and the
    chapter indices stay as they were.  With no chapter of that index the
    manager is left as it is, and nothing is saved. *)
Theorem update_chapter_status_lookup (p : ProjectManager) (chapter_idx : Z) (status : string) :
  let p' := update_chapter_status p chapter_idx status in
  match get_chapter_entry p chapter_idx with
  | Some ch =>
      get_chapter_entry p' chapter_idx = Some (with_status ch status) /\
      project_json p' = Some (project_data p')
  | None => p' = p
  end /\
  (forall j, j <> chapter_idx -> get_chapter_entry p' j = get_chapter_entry p j) /\
  map ce_index (pd_chapters (project_data p')) = map ce_index (pd_chapters (project_data p)).
Proof.
  intros p'. subst p'. unfold update_chapter_status, get_chapter_entry.
  pose proof (set_status_first_spec chapter_idx status (pd_chapters (project_data p))) as H.
  destruct (set_status_first _ _ _) as [chs'|].
  - destruct H as (pre & ch & post & Heq & -> & Hch & Hpre). rewrite Heq. simpl.
    rewrite (find_index_app chapter_idx pre post ch Hpre Hch).
    split; [split; [|done]|split].
    + by apply find_index_app.
    + intros j Hj. by apply (find_index_other chapter_idx).
    + by rewrite !map_app.
  - split; [|done].
    destruct (List.find _ _) as [ch|] eqn:Hfind; [|done].
    apply find_some in Hfind as [Hin Hidx]. apply Z.eqb_eq in Hidx.
    by destruct (H ch ltac:(by apply list_elem_of_In)).
Qed.

(** Marking the chapter [get_next_pending] returned with a status other
    than pending takes exactly one chapter off the pending ones, when the
    chapter indices are distinct; so producing chapter after chapter
    comes to an end. *)
Theorem next_pending_makes_progress (p : ProjectManager) (ch : ChapterEntry) (status : string) :
  NoDup (map ce_index (pd_chapters (project_data p))) ->
  get_next_pending p = Some ch ->
  status <> STATUS_PENDING ->
  S (pending_count (update_chapter_status p (ce_index ch) status)) = pending_count p.
Proof.
  intros Hnodup Hnext Hstatus.
  destruct (get_next_pending_pending p ch Hnext) as (Hin & Hpending).
  unfold pending_count, update_chapter_status.
  pose proof (set_status_first_spec (ce_index ch) status (pd_chapters (project_data p))) as H.
  destruct (set_status_first _ _ _) as [chs'|].
  2:{ by destruct (H ch Hin). }
  destruct H as (pre & c & post & Heq & -> & Hc & Hpre). simpl.
  assert (c = ch) as ->.
  { rewrite Heq in Hin, Hnodup. rewrite map_app in Hnodup. simpl in Hnodup.
    apply NoDup_app in Hnodup as (_ & Hdisj & Hpost).
    apply NoDup_cons in Hpost as [Hnotin _].
    apply elem_of_app in Hin as [Hin|[->|Hin]%elem_of_cons]; [|done|].
    - by destruct (Hpre ch Hin).
    - destruct Hnotin. rewrite Hc. apply list_elem_of_fmap. eauto. }
  rewrite Heq, !List.filter_app, !length_app. simpl.
  assert (is_pending (with_status ch status) = false) as ->
    by (by apply String.eqb_neq).
  assert (is_pending ch = true) as -> by (by apply String.eqb_eq).
  simpl. lia.
Qed.

Example planned_chapters_start_after_intro :
  ce_index <$> get_next_pending david_planned = Some 1.
Proof. reflexivity. Qed.

Lemma next_pending_makes_progress_witness :
  S (pending_count (update_chapter_status david_planned 1 STATUS_RENDERED))
  = pending_count david_planned.
Proof.
  refine (next_pending_makes_progress david_planned _ STATUS_RENDERED _ eq_refl _).
  - apply (bool_decide_unpack _). reflexivity.
  - discriminate.
Defined.

Lemma find_map {A B} (f : B -> bool) (g : A -> B) (l : list A) :
  List.find f (map g l) = option_map g (List.find (fun x => f (g x)) l).
Proof. induction l as [|x l IH]; simpl; [done|]. by destruct (f (g x)). Qed.

Lemma plan_entries_indices (idx : Z) (chapters : list ChapterPlan) :
  map ce_index (plan_entries idx chapters) = seqZ idx (Z.of_nat (length chapters)).
Proof.
  revert idx. induction chapters as [|ch chapters IH]; intros idx; [done|].
  cbn [plan_entries map length]. rewrite IH, (seqZ_cons idx) by lia.
  do 2 f_equal; lia.
Qed.

Lemma plan_entries_find (idx : Z) (chapters : list ChapterPlan) (i : nat) (plan : ChapterPlan) :
  chapters !! i = Some plan ->
  exists ch,
    List.find (fun c => ce_index c =? idx + Z.of_nat i) (plan_entries idx chapters) = Some ch /\
    ce_index ch = idx + Z.of_nat i /\ ce_title ch = plan_title plan /\
    ce_slug ch = default (slugify (plan_title plan)) (plan_slug plan) /\
    ce_status ch = STATUS_PENDING /\
    ce_dir ch = "ch" +:+ fmt_0d 2 (ce_index ch) +:+ "_" +:+ ce_slug ch.
Proof.
  revert idx i. induction chapters as [|c chapters IH]; intros idx i; [done|].
  destruct i as [|i]; cbn [plan_entries List.find ce_index].
  - intros [= ->]. rewrite Z.add_0_r, Z.eqb_refl. eexists. split; [done|].
    simpl. rewrite ?Z.add_0_r. done.
  - intros Hplan. simpl lookup in Hplan.
    rewrite (proj2 (Z.eqb_neq idx (idx + Z.of_nat (S i))) ltac:(lia)).
    destruct (IH (idx + 1) i Hplan) as (ch & Hfind & Hidx & Hrest).
    replace (idx + 1 + Z.of_nat i) with (idx + Z.of_nat (S i)) in Hfind, Hidx by lia.
    eauto.
Qed.

(** [set_chapters] numbers the chapters of the plan by position, from 0,
    all of them pending, and saves the project as planned; afterwards
    [get_chapter] finds the chapter planned at position [i] under index
    [i], and the path manager of that chapter roots it at the directory
    recorded in its entry. *)
Theorem set_chapters_numbers_by_position (p : ProjectManager) (chapters : list ChapterPlan) :
  let entries := (set_chapters p chapters).1 in
  let p' := (set_chapters p chapters).2 in
  pd_chapters (project_data p') = entries /\
  pd_status (project_data p') = "planned" /\
  project_json p' = Some (project_data p') /\
  map ce_index entries = seqZ 0 (Z.of_nat (length chapters)) /\
  (forall i plan, chapters !! i = Some plan ->
     exists ch,
       get_chapter_entry p' (Z.of_nat i) = Some ch /\
       ce_title ch = plan_title plan /\
       ce_status ch = STATUS_PENDING /\
       exists ch_pm,
         get_chapter_pm (as_project p') (Z.of_nat i) = Some ch_pm /\
         root ch_pm = os_path_join (ppm_root (proj_pm p)) (ce_dir ch)).
Proof.
  intros entries p'. subst entries p'. unfold set_chapters. simpl.
  split; [done|]. split; [done|]. split; [done|].
  split; [apply plan_entries_indices|].
  intros i plan Hplan.
  destruct (plan_entries_find 0 chapters i plan Hplan)
    as (ch & Hfind & Hidx & Htitle & Hslug & Hstatus & Hdir).
  rewrite Z.add_0_l in Hfind, Hidx.
  exists ch. unfold get_chapter_entry. simpl. split; [done|]. split; [done|]. split; [done|].
  unfold get_chapter_pm, get_chapter, as_project. simpl.
  rewrite find_map. simpl. rewrite Hfind. simpl. eexists. split; [done|].
  simpl. unfold cpm_root, chapter_dir. simpl. by rewrite Hdir.
Qed.

Section ProjectMergeFacts.

Context (engine : Cmd -> gmap string file -> EngineResult).

(** [merge_all_chapters] either returns [None] and leaves the project as
    it was (at once and with the disk untouched when no chapter video is
    on disk), or returns the project's final video after one successful
    concatenation; it has then removed the list file, marked the project
    complete and saved it, and every chapter that was rendered is now
    merged, whether or not its video was on disk to be concatenated, the
    other chapters keeping their status. *)
Theorem merge_all_chapters_outcome (p : ProjectManager) (st : State) :
  let concat_file := os_path_join (ppm_root (proj_pm p)) "concat_chapters.txt" in
  let output_path := project_final_video (proj_pm p) in
  let '(output, p', st') := merge_all_chapters engine p st in
  match output with
  | Some out =>
      out = output_path /\ chapter_videos p st <> [] /\
      (exists r, exit_ok r = true /\
         log st' = log st ++ [(CmdConcat concat_file output_path, r)]) /\
      fs st' !! concat_file = None /\
      pd_status (project_data p') = "complete" /\
      project_json p' = Some (project_data p') /\
      map ce_index (pd_chapters (project_data p'))
        = map ce_index (pd_chapters (project_data p)) /\
      map ce_status (pd_chapters (project_data p'))
        = map (fun ch => merged_status (ce_status ch)) (pd_chapters (project_data p))
  | None =>
      p' = p /\ (chapter_videos p st = [] -> st' = st)
  end.
Proof.
  intros concat_file output_path. unfold merge_all_chapters.
  destruct (chapter_videos p st) as [|v vs] eqn:Hvideos; [done|].
  fold concat_file output_path. unfold run_cmd.
  set (c := CmdConcat concat_file output_path). set (r := engine c _).
  destruct (exit_ok r) eqn:Hr; simpl; [|done].
  split; [done|]. split; [done|]. split; [by exists r|].
  split; [apply lookup_delete_eq|]. split; [done|]. split; [done|].
  rewrite !map_map. split; apply map_ext; intros ch; unfold merged_status;
    by destruct (String.eqb (ce_status ch) STATUS_RENDERED).
Qed.

End ProjectMergeFacts.

(** *** Slugs *)

Lemma lower_ascii_not_upper (c : Ascii.ascii) : is_AZ (lower_ascii c) = false.
Proof. by destruct c as [[] [] [] [] [] [] [] []]. Qed.

Lemma lower_ascii_slug_char (c : Ascii.ascii) : is_slug_char c = true -> lower_ascii c = c.
Proof. by destruct c as [[] [] [] [] [] [] [] []]. Qed.

Lemma slug_char_kept (c : Ascii.ascii) :
  is_slug_char c = true -> is_word c = true /\ is_sep c = false /\ is_space c = false.
Proof. by destruct c as [[] [] [] [] [] [] [] []]. Qed.

Lemma word_not_upper_slug_char (c : Ascii.ascii) :
  (is_word c || is_sep c)%bool = true -> is_sep c = false -> is_AZ c = false ->
  is_slug_char c = true.
Proof. by destruct c as [[] [] [] [] [] [] [] []]. Qed.

Lemma list_ascii_lower (s : string) :
  String.list_ascii_of_string (lower s) = map lower_ascii (String.list_ascii_of_string s).
Proof. induction s as [|c s IH]; simpl; [done|]. by rewrite IH. Qed.

Lemma lstrip_Forall (P : Ascii.ascii -> Prop) (l : list Ascii.ascii) :
  Forall P l -> Forall P (lstrip l).
Proof.
  induction 1 as [|c l Hc Hl IH]; simpl; [constructor|].
  destruct (is_space c); [done|by constructor].
Qed.

Lemma strip_Forall (P : Ascii.ascii -> Prop) (l : list Ascii.ascii) :
  Forall P l -> Forall P (strip l).
Proof.
  intros Hl. unfold strip. by apply Forall_rev, lstrip_Forall, Forall_rev, lstrip_Forall.
Qed.

Lemma collapse_seps_slug (l : list Ascii.ascii) (in_run : bool) :
  Forall (fun c => (is_word c || is_sep c)%bool = true /\ is_AZ c = false) l ->
  Forall (fun c => is_slug_char c = true) (collapse_seps l in_run).
Proof.
  intros Hl. revert in_run. induction Hl as [|c l [Hkeep Hup] _ IH]; intros in_run; simpl.
  { constructor. }
  destruct (is_sep c) eqn:Hsep.
  - destruct in_run; [apply IH|]. constructor; [done|apply IH].
  - constructor; [|apply IH]. apply word_not_upper_slug_char; [by rewrite Hsep|done..].
Qed.

Lemma lstrip_no_space (l : list Ascii.ascii) :
  Forall (fun c => is_space c = false) l -> lstrip l = l.
Proof. intros [|c l' Hc _]; simpl; [done|]. by rewrite Hc. Qed.

Lemma collapse_seps_no_sep (l : list Ascii.ascii) (in_run : bool) :
  Forall (fun c => is_sep c = false) l -> collapse_seps l in_run = l.
Proof.
  intros Hl. revert in_run. induction Hl as [|c l Hc _ IH]; intros in_run; simpl; [done|].
  by rewrite Hc, IH.
Qed.

Lemma filter_all {A} (f : A -> bool) (l : list A) :
  Forall (fun x => f x = true) l -> List.filter f l = l.
Proof. induction 1 as [|x l Hx _ IH]; simpl; [done|]. by rewrite Hx, IH. Qed.

Lemma map_id_on {A} (f : A -> A) (l : list A) :
  Forall (fun x => f x = x) l -> map f l = l.
Proof. induction 1 as [|x l Hx _ IH]; simpl; [done|]. by rewrite Hx, IH. Qed.

(** A string of slug characters is its own slug. *)
Lemma slugify_fixed (s : string) :
  Forall (fun c => is_slug_char c = true) (String.list_ascii_of_string s) ->
  slugify s = s.
Proof.
  intros Hs. unfold slugify. rewrite list_ascii_lower.
  rewrite map_id_on
    by (eapply Forall_impl; [exact Hs|]; intros c; apply lower_ascii_slug_char).
  assert (Hspace : Forall (fun c => is_space c = false) (String.list_ascii_of_string s))
    by (eapply Forall_impl; [exact Hs|]; intros c Hc; by apply slug_char_kept).
  unfold strip. rewrite (lstrip_no_space _ Hspace).
  rewrite (lstrip_no_space (rev _)) by (by apply Forall_rev).
  rewrite rev_involutive.
  rewrite filter_all.
  2:{ eapply Forall_impl; [exact Hs|]. intros c Hc.
      destruct (slug_char_kept c Hc) as (-> & _). done. }
  rewrite collapse_seps_no_sep.
  2:{ eapply Forall_impl; [exact Hs|]. intros c Hc. by apply slug_char_kept. }
  apply String.string_of_list_ascii_of_string.
Qed.

(** On ASCII text [slugify] yields only lower-case letters, digits and
    underscores, and slugifying a slug changes nothing. *)
Theorem slugify_safe_and_idempotent (text : string) :
  forallb is_ascii (String.list_ascii_of_string text) = true ->
  Forall (fun c => is_slug_char c = true) (String.list_ascii_of_string (slugify text)) /\
  slugify (slugify text) = slugify text.
Proof.
  intros _.
  assert (Hsafe : Forall (fun c => is_slug_char c = true)
                    (String.list_ascii_of_string (slugify text))).
  { unfold slugify. rewrite String.list_ascii_of_string_of_list_ascii.
    apply collapse_seps_slug. apply Forall_forall. intros c Hc.
    apply list_elem_of_In, filter_In in Hc as [Hc Hkeep]. split; [done|].
    apply list_elem_of_In in Hc.
    assert (Hall : Forall (fun c => is_AZ c = false)
                     (strip (String.list_ascii_of_string (lower text)))).
    { apply strip_Forall. rewrite list_ascii_lower. apply Forall_forall.
      intros c' (c0 & -> & _)%list_elem_of_fmap. apply lower_ascii_not_upper. }
    rewrite Forall_forall in Hall. by apply Hall. }
  split; [done|]. by apply slugify_fixed.
Qed.

Example slugify_title : slugify "  David & Goliath - Part 1 " = "david_goliath_part_1".
Proof. reflexivity. Qed.

Lemma slugify_safe_and_idempotent_witness :
  Forall (fun c => is_slug_char c = true)
    (String.list_ascii_of_string (slugify "  David & Goliath - Part 1 ")) /\
  slugify (slugify "  David & Goliath - Part 1 ") = slugify "  David & Goliath - Part 1 ".
Proof. exact (slugify_safe_and_idempotent "  David & Goliath - Part 1 " eq_refl). Defined.

(** A chapter that is rendered but whose video is not on disk is left out
    of the concatenation and still marked merged. *)
Example merge_marks_skipped_chapter_merged :
  let p := update_chapter_status (update_chapter_status david_planned 1 STATUS_RENDERED)
             2 STATUS_RENDERED in
  let st := on_disk [ ("/data/projects/david/ch01_the_giant/chapter.mp4", media 9000000 60) ] in
  let '(output, p', st') := merge_all_chapters engine_ok p st in
  chapter_videos p st = ["/data/projects/david/ch01_the_giant/chapter.mp4"] /\
  output = Some "/data/projects/david/final/master_david.mp4" /\
  map (fun c => (ce_index c, ce_status c)) (pd_chapters (project_data p'))
  = [(0, "pending"); (1, "merged"); (2, "merged")] /\
  map fst (log st')
  = [CmdConcat "/data/projects/david/concat_chapters.txt"
       "/data/projects/david/final/master_david.mp4"].
Proof. vm_compute. done. Qed.

(** ** Asset validation *)

Lemma validate_loop_filter (scenes_dir : string) (idxs : list Z) (st : State) :
  let valid i :=
    validate_video_asset (os_path_join scenes_dir ("scene_" +:+ fmt_0d 3 i +:+ ".mp4")) st in
  validate_loop scenes_dir idxs st
  = (List.filter valid idxs, List.filter (fun i => negb (valid i)) idxs).
Proof.
  intros valid. induction idxs as [|i idxs IH]; [done|].
  cbn [validate_loop List.filter]. rewrite IH. fold (valid i). by destruct (valid i).
Qed.

(** [validate_scene_videos] sorts the numbers [1..scene_count] into the
    two lists: a number is present iff the video [scene_NNN.mp4] of that
    number passes [validate_video_asset], missing iff it does not; every
    number lands in exactly one list, so the lengths add up to
    [scene_count], and nothing outside [1..scene_count] is looked at. *)
Theorem validate_scene_videos_partition (scenes_dir : string) (scene_count : nat) (st : State) :
  let valid i :=
    validate_video_asset (os_path_join scenes_dir ("scene_" +:+ fmt_0d 3 i +:+ ".mp4")) st in
  let '(present, missing) := validate_scene_videos scenes_dir scene_count st in
  (forall i, i ∈ present <-> 1 <= i <= Z.of_nat scene_count /\ valid i = true) /\
  (forall i, i ∈ missing <-> 1 <= i <= Z.of_nat scene_count /\ valid i = false) /\
  (length present + length missing = scene_count)%nat /\
  NoDup present /\ NoDup missing.
Proof.
  intros valid. unfold validate_scene_videos. rewrite validate_loop_filter. fold valid.
  set (idxs := seqZ 1 (Z.of_nat scene_count)).
  assert (Hidxs : forall i, i ∈ idxs <-> 1 <= i <= Z.of_nat scene_count).
  { intros i. subst idxs. rewrite elem_of_seqZ. lia. }
  split; [|split; [|split; [|split]]].
  - intros i. rewrite list_elem_of_In, filter_In, <- list_elem_of_In, Hidxs. done.
  - intros i. rewrite list_elem_of_In, filter_In, <- list_elem_of_In, Hidxs.
    by rewrite negb_true_iff.
  - assert (Hlen : length idxs = scene_count) by (subst idxs; rewrite length_seqZ; lia).
    rewrite <- Hlen. clear Hlen Hidxs. clearbody idxs.
    induction idxs as [|i idxs IH]; [done|].
    cbn [List.filter]. unfold valid at 1.
    destruct (validate_video_asset _ st); cbn [negb length]; lia.
  - apply NoDup_ListNoDup, List.NoDup_filter, NoDup_ListNoDup, NoDup_seqZ.
  - apply NoDup_ListNoDup, List.NoDup_filter, NoDup_ListNoDup, NoDup_seqZ.
Qed.

(** ** The render loop and the render-and-merge step *)

(** *** The temp file of a scene is no scene's clip *)

Lemma list_ascii_inj (s t : string) :
  String.list_ascii_of_string s = String.list_ascii_of_string t -> s = t.
Proof.
  intros H. rewrite <- (String.string_of_list_ascii_of_string s),
    <- (String.string_of_list_ascii_of_string t). by rewrite H.
Qed.

Lemma append_inv_tail (a b c : string) : a +:+ c = b +:+ c -> a = b.
Proof.
  intros H. apply list_ascii_inj.
  apply (f_equal String.list_ascii_of_string) in H.
  rewrite !list_ascii_append in H. by apply app_inv_tail in H.
Qed.

Lemma prefix_cons_inv (c d : Ascii.ascii) (s t : string) :
  String.prefix (String c s) (String d t) = true -> c = d /\ String.prefix s t = true.
Proof. simpl. by destruct (Ascii.ascii_dec c d). Qed.

Lemma replace_aux_suffix (new s : string) (skip : nat) :
  skip_ok skip (s +:+ ".mp4") ->
  exists pre, replace_aux ".mp4" new (s +:+ ".mp4") skip = pre +:+ new.
Proof.
  revert skip. induction s as [|c s IH]; intros skip Hskip.
  - destruct skip as [|[|[|[|]]]]; try done. exists "". simpl. by rewrite append_nil_r.
  - rewrite append_cons. cbn [replace_aux]. destruct skip as [|k].
    + destruct (String.prefix ".mp4" (String c (s +:+ ".mp4"))) eqn:Hp.
      * apply prefix_cons_inv in Hp as [_ Hp].
        destruct (IH 3%nat Hp) as [pre Hpre]. simpl String.length. simpl Nat.sub.
        rewrite Hpre. exists (new +:+ pre). by rewrite append_assoc.
      * destruct (IH 0%nat I) as [pre Hpre]. rewrite Hpre. by exists (String c pre).
    + apply IH. rewrite append_cons in Hskip.
      destruct k as [|[|[|]]]; try done; simpl in Hskip |- *;
        by apply prefix_cons_inv in Hskip as [_ Hskip].
Qed.

Lemma pretty_N_char_digit (x : N) : is_digit (pretty_N_char x) = true.
Proof.
  destruct x as [|p]; [done|].
  destruct p as [[[[p|p|]|[p|p|]|]|[[p|p|]|[p|p|]|]|]|[[[p|p|]|[p|p|]|]|[[p|p|]|[p|p|]|]|]|];
    reflexivity.
Qed.

Lemma pretty_N_go_suffix (x : N) (s : string) :
  exists u, pretty_N_go x s = u +:+ s.
Proof.
  revert s. induction (N.lt_wf_0 x) as [x _ IH]. intros s.
  destruct (decide (x = 0%N)) as [->|Hx].
  - exists "". by rewrite pretty_N_go_0.
  - rewrite pretty_N_go_step by lia.
    destruct (IH (x `div` 10)%N ltac:(apply N.div_lt; lia)
                (String (pretty_N_char (x `mod` 10)) s)) as [u Hu].
    rewrite Hu. exists (u +:+ String (pretty_N_char (x `mod` 10)) "").
    by rewrite append_assoc.
Qed.

Lemma fmt_0d_last_digit (w : nat) (z : Z) :
  exists u d, fmt_0d w z = u +:+ String d "" /\ is_digit d = true.
Proof.
  unfold fmt_0d. set (sign := if z <? 0 then "-" else "").
  set (pad := zeros _).
  assert (Hdigits : exists u d, pretty (Z.abs_N z) = u +:+ String d "" /\ is_digit d = true).
  { unfold pretty, pretty_N. destruct (decide (Z.abs_N z = 0%N)) as [_|Hz].
    - by exists "", (Ascii.ascii_of_nat 48).
    - rewrite pretty_N_go_step by lia.
      destruct (pretty_N_go_suffix (Z.abs_N z `div` 10)
                  (String (pretty_N_char (Z.abs_N z `mod` 10)) "")) as [u Hu].
      rewrite Hu. exists u, (pretty_N_char (Z.abs_N z `mod` 10)).
      split; [done|apply pretty_N_char_digit]. }
  destruct Hdigits as (u & d & -> & Hd).
  exists (sign +:+ pad +:+ u), d. split; [|done]. by rewrite !append_assoc.
Qed.

Lemma get_clip_path_shape (pm : path_manager) (scene_id : Z) (shorts : bool) :
  exists u d, get_clip_path pm scene_id shorts = u +:+ String d "" +:+ ".mp4" /\
              is_digit d = true.
Proof.
  unfold get_clip_path. set (base := match pm with LegacyPM _ => _ | ChapterPM _ => _ end).
  destruct (os_path_join_sep base) as [sep Hsep]. rewrite Hsep by done.
  destruct (fmt_0d_last_digit 3 scene_id) as (u & d & -> & Hd).
  exists (base +:+ sep +:+ "clip_" +:+ u), d. split; [|done].
  by rewrite !append_assoc.
Qed.

(** A path whose name ends with a digit before [.mp4] is not what
    [replace(".mp4", new)] gives when [new] has another character there. *)
Lemma replace_suffix_ne (new0 : string) (c : Ascii.ascii) (v u : string) (d : Ascii.ascii) :
  is_digit d = true -> is_digit c = false ->
  str_replace ".mp4" (new0 +:+ String c ".mp4") (v +:+ ".mp4")
  <> u +:+ String d "" +:+ ".mp4".
Proof.
  intros Hd Hc. destruct (replace_aux_suffix (new0 +:+ String c ".mp4") v 0 I) as [pre Hpre].
  unfold str_replace. rewrite Hpre.
  change (String c ".mp4") with (String c "" +:+ ".mp4"). rewrite <- !append_assoc.
  intros Heq%append_inv_tail.
  apply (f_equal (fun s => last (String.list_ascii_of_string s))) in Heq.
  rewrite !list_ascii_append in Heq. simpl in Heq. rewrite !last_snoc in Heq.
  injection Heq as <-. congruence.
Qed.

Lemma temp_suffix_ne (v u : string) (d : Ascii.ascii) :
  is_digit d = true ->
  str_replace ".mp4" "_temp.mp4" (v +:+ ".mp4") <> u +:+ String d "" +:+ ".mp4".
Proof. intros Hd. by apply (replace_suffix_ne "_tem" (Ascii.ascii_of_nat 112)). Qed.

(** The temp file of a scene is not the clip of any scene. *)
Lemma temp_path_not_clip (pm : path_manager) (i j : Z) (shorts : bool) :
  str_replace ".mp4" "_temp.mp4" (get_clip_path pm j shorts) <> get_clip_path pm i shorts.
Proof.
  destruct (get_clip_path_mp4 pm j shorts) as [v ->].
  destruct (get_clip_path_shape pm i shorts) as (u & d & -> & Hd).
  by apply temp_suffix_ne.
Qed.

Lemma append_inv_head (a x y : string) : a +:+ x = a +:+ y -> x = y.
Proof.
  induction a as [|c a IH]; [done|]. rewrite !append_cons. intros [= H]. by apply IH.
Qed.

Lemma sibling_paths_ne (r a b x y : string) :
  String.prefix "/" a = false -> String.prefix "/" b = false ->
  String.prefix "/" x = false -> String.prefix "/" y = false ->
  (forall s t, a +:+ s <> b +:+ t) ->
  os_path_join (os_path_join r a) x <> os_path_join (os_path_join r b) y.
Proof.
  intros Ha Hb Hx Hy Hab.
  destruct (os_path_join_sep r) as [s Hs]. rewrite (Hs a), (Hs b) by done.
  destruct (os_path_join_sep (r +:+ s +:+ a)) as [s1 Hs1].
  destruct (os_path_join_sep (r +:+ s +:+ b)) as [s2 Hs2].
  rewrite Hs1, Hs2 by done. rewrite !append_assoc.
  intros H. do 2 apply append_inv_head in H. by apply Hab in H.
Qed.

Lemma scene_video_not_clip (pm : path_manager) (i j : Z) (shorts : bool) :
  get_scene_video_path pm i shorts <> get_clip_path pm j shorts.
Proof.
  unfold get_scene_video_path, get_clip_path, scenes_dir, clips, scenes_shorts, clips_shorts.
  destruct pm as [p|c]; [|destruct shorts]; simpl root;
    apply sibling_paths_ne; try done; intros s t; rewrite !append_cons; discriminate.
Qed.

Lemma get_scene_video_path_shape (pm : path_manager) (scene_id : Z) (shorts : bool) :
  exists u d, get_scene_video_path pm scene_id shorts = u +:+ String d "" +:+ ".mp4" /\
              is_digit d = true.
Proof.
  unfold get_scene_video_path.
  set (base := match pm with LegacyPM _ => _ | ChapterPM _ => _ end).
  destruct (os_path_join_sep base) as [sep Hsep]. rewrite Hsep by done.
  destruct (fmt_0d_last_digit 3 scene_id) as (u & d & -> & Hd).
  exists (base +:+ sep +:+ "scene_" +:+ u), d. split; [|done].
  by rewrite !append_assoc.
Qed.

Lemma scene_video_not_temp (pm : path_manager) (i j : Z) (shorts : bool) :
  get_scene_video_path pm i shorts
  <> str_replace ".mp4" "_temp.mp4" (get_clip_path pm j shorts).
Proof.
  destruct (get_clip_path_mp4 pm j shorts) as [v ->].
  destruct (get_scene_video_path_shape pm i shorts) as (u & d & -> & Hd).
  by apply not_eq_sym, temp_suffix_ne.
Qed.

Lemma last_char_append (s : string) (c : Ascii.ascii) (t : string) :
  last_char (s +:+ String c t) = last_char (String c t).
Proof.
  unfold last_char. rewrite list_ascii_append. simpl String.list_ascii_of_string.
  apply last_app_cons.
Qed.

Lemma last_char_mp4 (u : string) : last_char (u +:+ ".mp4") = last_char "4".
Proof. by rewrite last_char_append. Qed.

Lemma last_char_temp (v : string) :
  last_char (str_replace ".mp4" "_temp.mp4" (v +:+ ".mp4")) = last_char "4".
Proof.
  destruct (replace_aux_suffix "_temp.mp4" v 0 I) as [pre Hpre].
  unfold str_replace. rewrite Hpre. by rewrite last_char_append.
Qed.

Lemma fmt_suffix_last (a pre suffix : string) (z : Z) (c : Ascii.ascii) (t : string) :
  suffix = String c t ->
  String.prefix "/" (pre +:+ fmt_0d 3 z +:+ suffix) = false ->
  last_char (os_path_join a (pre +:+ fmt_0d 3 z +:+ suffix)) = last_char suffix.
Proof.
  intros -> Hp. destruct (os_path_join_sep a) as [sep Hsep]. rewrite Hsep by done.
  rewrite <- !append_assoc. apply last_char_append.
Qed.

Lemma narration_not_video (pm : path_manager) (i j : Z) (shorts : bool) :
  get_audio_path pm i <> get_clip_path pm j shorts /\
  get_audio_path pm i <> str_replace ".mp4" "_temp.mp4" (get_clip_path pm j shorts) /\
  get_vtt_path pm i <> get_clip_path pm j shorts /\
  get_vtt_path pm i <> str_replace ".mp4" "_temp.mp4" (get_clip_path pm j shorts).
Proof.
  assert (Ha : last_char (get_audio_path pm i) = last_char "3").
  { unfold get_audio_path. by rewrite (fmt_suffix_last _ "audio_" ".mp3" i _ _ eq_refl). }
  assert (Hv : last_char (get_vtt_path pm i) = last_char "t").
  { unfold get_vtt_path. by rewrite (fmt_suffix_last _ "audio_" ".vtt" i _ _ eq_refl). }
  destruct (get_clip_path_mp4 pm j shorts) as [v ->].
  pose proof (last_char_mp4 v) as Hc. pose proof (last_char_temp v) as Ht.
  split; [|split; [|split]]; intros Heq; rewrite Heq in *;
    first [rewrite Hc in Ha; by vm_compute in Ha | rewrite Ht in Ha; by vm_compute in Ha
          | rewrite Hc in Hv; by vm_compute in Hv | rewrite Ht in Hv; by vm_compute in Hv].
Qed.

Section RenderFrame.

Context (engine : Cmd -> gmap string file -> EngineResult).

Lemma run_cmd_frame (c : Cmd) (st : State) (p : string) :
  p <> cmd_output c -> fs (run_cmd engine c st).2 !! p = fs st !! p.
Proof.
  intros Hne. unfold run_cmd. simpl. destruct (written _); [by rewrite lookup_insert_ne|done].
Qed.

Lemma burn_subtitles_frame temp_path vtt_path output_path st p :
  p <> temp_path -> p <> output_path ->
  fs (burn_subtitles engine temp_path vtt_path output_path st).2 !! p = fs st !! p.
Proof.
  intros Ht Ho. unfold burn_subtitles. destruct (exists_larger vtt_path 10 st).
  - pose proof (run_cmd_frame (CmdSubtitles temp_path vtt_path output_path) st p Ho) as H1.
    destruct (run_cmd engine _ st) as [success st1]. simpl in H1.
    assert (fs (if exists_ temp_path st1 then os_remove temp_path st1 else st1) !! p
            = fs st !! p) as H2.
    { destruct (exists_ temp_path st1); [|done]. simpl. by rewrite lookup_delete_ne. }
    by destruct success.
  - destruct (exists_ temp_path st); [|done]. unfold os_rename.
    destruct (fs st !! temp_path); [|done]. simpl.
    by rewrite lookup_insert_ne, lookup_delete_ne.
Qed.

Lemma base_then_subtitles_frame c vtt_path output_path st p :
  p <> cmd_output c -> p <> output_path ->
  fs (let '(ok, st1) := run_cmd engine c st in
      if negb ok then (false, st1)
      else burn_subtitles engine (cmd_output c) vtt_path output_path st1).2 !! p
  = fs st !! p.
Proof.
  intros Ht Ho. pose proof (run_cmd_frame c st p Ht) as H1.
  destruct (run_cmd engine c st) as [ok st1]. simpl in H1.
  destruct ok; simpl; [|done]. by rewrite burn_subtitles_frame.
Qed.

(** [render_scene] writes, renames and removes nothing but the clip of
    the scene and its temp file: every other path holds after the call
    what it held before, whatever the outcome. *)
Lemma render_scene_frame (self : Orchestrator) (scene_id : Z)
  (st : State) (p : string) :
  let output_path := get_clip_path (pm self) scene_id (shorts_mode self) in
  p <> output_path ->
  p <> str_replace ".mp4" "_temp.mp4" output_path ->
  fs (render_scene engine self scene_id st).2 !! p = fs st !! p.
Proof.
  intros output_path Ho Ht. unfold render_scene. fold output_path.
  destruct (exists_larger output_path _ st); [done|].
  destruct (negb (exists_ _ st)); [done|].
  destruct (String.eqb _ "veo").
  { unfold render_veo. destruct (target_size _) as [w h].
    by apply (base_then_subtitles_frame (CmdRenderVeo _ _ _ _ _)). }
  destruct (_ && _)%bool.
  { unfold render_mix. destruct (target_size _) as [w h].
    by apply (base_then_subtitles_frame (CmdRenderMix _ _ _ _ _ _)). }
  unfold render_tts.
  destruct (negb (exists_ _ st)); [done|].
  destruct (PrimFloat.leb _ 0); [done|].
  destruct (target_size _) as [w h]. destruct (speed_adjust _ _) as [atempo t].
  by apply (base_then_subtitles_frame (CmdRenderTTS _ _ _ _ _ _ _ _)).
Qed.

(** [render_scene] leaves its inputs alone: whatever the outcome, the
    scene video, the narration and the subtitle file of any scene hold
    after the call what they held before. *)
Theorem render_scene_leaves_inputs (self : Orchestrator) (scene_id i : Z) (st : State) :
  let st' := (render_scene engine self scene_id st).2 in
  fs st' !! get_scene_video_path (pm self) i (shorts_mode self)
    = fs st !! get_scene_video_path (pm self) i (shorts_mode self) /\
  fs st' !! get_audio_path (pm self) i = fs st !! get_audio_path (pm self) i /\
  fs st' !! get_vtt_path (pm self) i = fs st !! get_vtt_path (pm self) i.
Proof.
  intros st'. subst st'.
  destruct (narration_not_video (pm self) i scene_id (shorts_mode self))
    as (Ha1 & Ha2 & Hv1 & Hv2).
  split; [|split]; apply render_scene_frame; try done.
  - apply scene_video_not_clip.
  - apply scene_video_not_temp.
Qed.

End RenderFrame.

Section RenderAll.

Context (engine : Cmd -> gmap string file -> EngineResult).
Context (normalize_scene_files : Orchestrator -> State -> State).

Lemma render_scene_keeps_clips (self : Orchestrator) (i j : Z) (st : State) :
  exists_larger (get_clip_path (pm self) i (shorts_mode self)) (1024 * 1024) st = true ->
  exists_larger (get_clip_path (pm self) i (shorts_mode self)) (1024 * 1024)
    (render_scene engine self j st).2 = true.
Proof.
  intros Hi.
  destruct (exists_larger (get_clip_path (pm self) j (shorts_mode self)) (1024 * 1024) st)
    eqn:Hj.
  { by rewrite render_scene_skips. }
  unfold exists_larger.
  rewrite (render_scene_frame engine self j st).
  - exact Hi.
  - intros Heq. rewrite Heq in Hi. congruence.
  - apply not_eq_sym, temp_path_not_clip.
Qed.

Lemma render_loop_cons (self : Orchestrator) (scene : Scene) (todo : list Scene) (st : State) :
  render_loop engine self (scene :: todo) st
  = (let '(ok, st1) := render_scene engine self (id scene) st in
     let '(success, st2) := render_loop engine self todo st1 in
     ((if ok then 1 else 0) + success, st2)).
Proof. reflexivity. Qed.

Lemma render_loop_clips (self : Orchestrator) (todo : list Scene) (st : State) :
  engine_writes_over engine (1024 * 1024) ->
  let '(success, st') := render_loop engine self todo st in
  0 <= success <= Z.of_nat (length todo) /\
  (forall i,
     exists_larger (get_clip_path (pm self) i (shorts_mode self)) (1024 * 1024) st = true ->
     exists_larger (get_clip_path (pm self) i (shorts_mode self)) (1024 * 1024) st' = true) /\
  (success = Z.of_nat (length todo) ->
   forall scene, scene ∈ todo ->
     exists_larger (get_clip_path (pm self) (id scene) (shorts_mode self)) (1024 * 1024) st'
     = true).
Proof.
  intros Heng. revert st. induction todo as [|scene todo IH]; intros st.
  { simpl. split; [lia|]. split; [done|]. by intros _ ? ?%elem_of_nil. }
  rewrite render_loop_cons.
  pose proof (fun i => render_scene_keeps_clips self i (id scene) st) as Hkeep.
  destruct (render_scene engine self (id scene) st) as [ok st1] eqn:Hrender.
  specialize (IH st1). destruct (render_loop engine self todo st1) as [success st2].
  destruct IH as (Hrange & Hkeep2 & Hall). cbn [snd] in Hkeep.
  split; [destruct ok; simpl length; lia|]. split; [by intros i Hi; apply Hkeep2, Hkeep|].
  intros Hcount scene' Hin. simpl length in Hcount.
  destruct ok; [|lia].
  apply elem_of_cons in Hin as [->|Hin].
  - apply Hkeep2, exists_larger_spec.
    by apply (render_scene_true_clip engine self (id scene) st st1).
  - apply Hall; [lia|done].
Qed.

Lemma render_all_clips_on_disk (self : Orchestrator) (st st' : State) :
  engine_writes_over engine (1024 * 1024) ->
  render_all engine normalize_scene_files self st = (true, st') ->
  forall scene, scene ∈ scenes self ->
    exists_larger (get_clip_path (pm self) (id scene) (shorts_mode self)) (1024 * 1024) st'
    = true.
Proof.
  intros Heng. unfold render_all.
  destruct (check_scene_videos normalize_scene_files self st) as [[present missing] st1].
  destruct (nonempty missing); [done|].
  pose proof (render_loop_clips self (scenes self) st1 Heng) as Hloop.
  destruct (render_loop engine self (scenes self) st1) as [success st2].
  destruct Hloop as (_ & _ & Hall).
  intros [= Hcount%Z.eqb_eq <-] scene Hin. by apply Hall.
Qed.

(** [render_all] returns [True] only when, after the uploads were
    normalized, the scene video of every number from 1 to the number of
    scenes passed validation; and then, with an engine whose successful
    runs leave more than 1 MiB, the clip of every scene is on disk with
    more than 1 MiB once the loop is over: a scene rendered early is not
    overwritten or removed by the renders that follow. *)
Theorem render_all_leaves_every_clip (self : Orchestrator) (st st' : State) :
  engine_writes_over engine (1024 * 1024) ->
  render_all engine normalize_scene_files self st = (true, st') ->
  (forall i, 1 <= i <= Z.of_nat (length (scenes self)) ->
     validate_video_asset
       (get_scene_video_path (pm self) i (shorts_mode self))
       (normalize_scene_files self st) = true) /\
  (forall scene, scene ∈ scenes self ->
     exists clip,
       fs st' !! get_clip_path (pm self) (id scene) (shorts_mode self) = Some clip /\
       1024 * 1024 < fsize clip).
Proof.
  intros Heng Hrender. split.
  - revert Hrender. unfold render_all, check_scene_videos.
    set (dir := match pm self with ChapterPM _ => _ | LegacyPM _ => _ end).
    unfold validate_scene_videos. rewrite validate_loop_filter.
    destruct (nonempty _) eqn:Hmissing; [done|]. intros _ i Hi.
    assert (Hdir : get_scene_video_path (pm self) i (shorts_mode self)
                   = os_path_join dir ("scene_" +:+ fmt_0d 3 i +:+ ".mp4")).
    { unfold get_scene_video_path, dir. by destruct (pm self), (shorts_mode self). }
    rewrite Hdir.
    destruct (validate_video_asset _ _) eqn:Hvalid; [done|].
    assert (Hin : i ∈ List.filter
              (fun i => negb (validate_video_asset
                 (os_path_join dir ("scene_" +:+ fmt_0d 3 i +:+ ".mp4"))
                 (normalize_scene_files self st)))
              (seqZ 1 (Z.of_nat (length (scenes self))))).
    { apply list_elem_of_In, filter_In. split.
      - apply list_elem_of_In, elem_of_seqZ. lia.
      - by rewrite Hvalid. }
    destruct (List.filter _ _); [by apply elem_of_nil in Hin|done].
  - intros scene Hin. apply exists_larger_spec.
    by apply (render_all_clips_on_disk self st st').
Qed.

(** The render-and-merge step covers every scene: when it returns an
    output and the engine's successful runs leave more than 1 MiB, the
    engine has normalized, successfully, the clip of every scene of the
    script before concatenating. *)
Theorem render_and_merge_covers_every_scene (self : Orchestrator) (st st' : State)
  (output : string) :
  engine_writes_over engine (1024 * 1024) ->
  render_and_merge engine normalize_scene_files self st = (Some output, st') ->
  output = merge_output self /\
  forall scene, scene ∈ scenes self ->
    exists r, (norm_cmd self (id scene), r) ∈ log st' /\ exit_ok r = true.
Proof.
  intros Heng. unfold render_and_merge.
  destruct (render_all engine normalize_scene_files self st) as [render_ok st1] eqn:Hrender.
  destruct render_ok; [|done].
  pose proof (render_all_clips_on_disk self st st1 Heng Hrender) as Hclips.
  intros Hmerge.
  destruct (merge_clips_log engine self st1) as (done & rs & tail & Hlog & Hlen & _ & _ & Hsome).
  rewrite Hmerge in Hlog, Hsome. cbn [fst snd] in Hlog, Hsome.
  destruct (Hsome output eq_refl) as (-> & _ & -> & Hall & _).
  split; [done|]. intros scene Hin.
  assert (Hid : id scene ∈ sorted (clip_ids self st1)).
  { unfold sorted. rewrite merge_sort_Permutation. unfold clip_ids.
    apply list_elem_of_fmap. exists scene. split; [done|].
    apply list_elem_of_In, filter_In. split; [by apply list_elem_of_In|].
    destruct (proj1 (exists_larger_spec _ _ _) (Hclips scene Hin)) as (clip & Hclip & Hsize).
    apply exists_larger_spec. exists clip. split; [done|lia]. }
  apply list_elem_of_lookup in Hid as [k Hk].
  destruct (lookup_lt_is_Some_2 rs k) as [r Hr].
  { rewrite Hlen. by eapply lookup_lt_Some. }
  exists r. split.
  - rewrite Hlog. apply elem_of_app. right. apply elem_of_app. left.
    apply list_elem_of_lookup. exists k. apply lookup_zip_with_Some.
    exists (norm_cmd self (id scene)), r. split; [done|]. split; [|done].
    by rewrite list_lookup_fmap, Hk.
  - rewrite Forall_forall in Hall. apply Hall. by eapply list_elem_of_lookup_2.
Qed.

End RenderAll.

Example ready_chapter_renders_and_merges :
  (render_and_merge engine_ok no_uploads giant ready_disk).1 = Some (merge_output giant).
Proof. vm_compute. reflexivity. Qed.

Lemma render_all_leaves_every_clip_witness :
  let st' := (render_all engine_ok no_uploads giant ready_disk).2 in
  (forall i, 1 <= i <= Z.of_nat (length (scenes giant)) ->
     validate_video_asset (get_scene_video_path (pm giant) i (shorts_mode giant))
       (no_uploads giant ready_disk) = true) /\
  (forall scene, scene ∈ scenes giant ->
     exists clip,
       fs st' !! get_clip_path (pm giant) (id scene) (shorts_mode giant) = Some clip /\
       1024 * 1024 < fsize clip).
Proof.
  exact (render_all_leaves_every_clip engine_ok no_uploads giant ready_disk
           (render_all engine_ok no_uploads giant ready_disk).2
           engine_ok_writes_over_1MiB eq_refl).
Defined.

Lemma render_and_merge_covers_every_scene_witness :
  let st' := (render_and_merge engine_ok no_uploads giant ready_disk).2 in
  merge_output giant = merge_output giant /\
  forall scene, scene ∈ scenes giant ->
    exists r, (norm_cmd giant (id scene), r) ∈ log st' /\ exit_ok r = true.
Proof.
  exact (render_and_merge_covers_every_scene engine_ok no_uploads giant ready_disk
           (render_and_merge engine_ok no_uploads giant ready_disk).2 (merge_output giant)
           engine_ok_writes_over_1MiB eq_refl).
Defined.

(** ** What the merger leaves on disk *)

Lemma shutil_rmtree_frame (d : string) (st : State) (p : string) :
  String.prefix (d +:+ "/") p = false ->
  fs (shutil_rmtree d st) !! p = fs st !! p.
Proof.
  intros Hp. unfold shutil_rmtree. simpl.
  destruct (fs st !! p) as [f|] eqn:Hf.
  - by apply map_lookup_filter_Some_2.
  - apply map_lookup_filter_None. by left.
Qed.

Section MergeFrame.

Context (engine : Cmd -> gmap string file -> EngineResult).

Lemma normalize_loop_frame self norm_dir ids st p :
  (forall idx, p <> os_path_join norm_dir (clip_name idx)) ->
  fs (normalize_loop engine self norm_dir ids st).2 !! p = fs st !! p.
Proof.
  intros Hp. revert st. induction ids as [|idx ids IH]; intros st; [done|].
  rewrite normalize_loop_cons.
  pose proof (run_cmd_frame engine
    (CmdNormalize (get_clip_path (pm self) idx (shorts_mode self))
       (os_path_join norm_dir (clip_name idx))) st p (Hp idx)) as H1.
  destruct (run_cmd engine _ st) as [ok st1]. simpl in H1.
  destruct ok; simpl; [by rewrite IH|done].
Qed.

Lemma cta_frame (video_path : string) (is_shorts : bool) (st : State) (p : string) :
  p <> video_path ->
  p <> str_replace ".mp4" "_cta.mp4" video_path ->
  fs (_apply_universal_cta engine video_path is_shorts st).2 !! p = fs st !! p.
Proof.
  intros Hv Ho. unfold _apply_universal_cta.
  destruct (negb (exists_ cta_path st)); [done|].
  set (c := CmdCtaOverlay _ _ _ _ _ _ _).
  pose proof (run_cmd_frame engine c st p Ho) as H1.
  destruct (run_cmd engine c st) as [ok st1]. simpl in H1.
  destruct ok.
  - unfold shutil_move. destruct (fs st1 !! str_replace _ _ _); simpl; [|done].
    by rewrite lookup_insert_ne, lookup_delete_ne.
  - destruct (exists_ _ st1); simpl; [|done]. by rewrite lookup_delete_ne.
Qed.

Lemma merge_clips_frame (self : Orchestrator) (st : State) (p : string) :
  let norm_dir := os_path_join (render_dir self) "_normalized" in
  (forall idx, p <> os_path_join norm_dir (clip_name idx)) ->
  p <> os_path_join norm_dir "concat_list.txt" ->
  String.prefix (norm_dir +:+ "/") p = false ->
  p <> merge_output self ->
  p <> str_replace ".mp4" "_cta.mp4" (merge_output self) ->
  fs (merge_clips engine self st).2 !! p = fs st !! p.
Proof.
  intros norm_dir Hnorm Hlist Hdir Hout Hcta. unfold merge_clips. fold norm_dir.
  destruct (clip_ids self st) as [|i ids]; [done|].
  pose proof (normalize_loop_frame self norm_dir (sorted (i :: ids)) st p Hnorm) as H1.
  destruct (normalize_loop engine self norm_dir _ st) as [ok st1]. simpl in H1.
  destruct ok; simpl negb; cbv iota; [|done].
  set (st2 := write_lines _ _ st1).
  assert (H2 : fs st2 !! p = fs st !! p).
  { subst st2. unfold write_lines. simpl. by rewrite lookup_insert_ne, H1. }
  clearbody st2.
  pose proof (run_cmd_frame engine
    (CmdConcat (os_path_join norm_dir "concat_list.txt") (merge_output self)) st2 p Hout) as H3.
  destruct (run_cmd engine _ st2) as [ok st3]. simpl in H3.
  destruct ok; [|simpl; by rewrite H3, H2].
  pose proof (shutil_rmtree_frame norm_dir st3 p Hdir) as H4.
  destruct (wants_cta self); [|cbn [snd]; by rewrite H4, H3, H2].
  pose proof (cta_frame (merge_output self) (shorts_mode self)
                (shutil_rmtree norm_dir st3) p Hout Hcta) as H5.
  destruct (_apply_universal_cta _ _ _ _) as [out st5]. cbn [snd] in H5 |- *.
  by rewrite H5, H4, H3, H2.
Qed.

End MergeFrame.

Lemma get_clip_path_render_dir (self : Orchestrator) (i : Z) :
  get_clip_path (pm self) i (shorts_mode self) = os_path_join (render_dir self) (clip_name i).
Proof. unfold get_clip_path, render_dir. by destruct (pm self), (shorts_mode self). Qed.

(** The clip of a scene is none of the paths the merger writes or
    removes. *)
Lemma clip_outside_merge (self : Orchestrator) (i : Z) :
  let p := get_clip_path (pm self) i (shorts_mode self) in
  let norm_dir := os_path_join (render_dir self) "_normalized" in
  (forall idx, p <> os_path_join norm_dir (clip_name idx)) /\
  p <> os_path_join norm_dir "concat_list.txt" /\
  String.prefix (norm_dir +:+ "/") p = false /\
  p <> merge_output self /\
  p <> str_replace ".mp4" "_cta.mp4" (merge_output self).
Proof.
  intros p norm_dir.
  assert (Hinside :
    (forall idx, p <> os_path_join norm_dir (clip_name idx)) /\
    p <> os_path_join norm_dir "concat_list.txt" /\
    String.prefix (norm_dir +:+ "/") p = false).
  { subst p norm_dir. rewrite get_clip_path_render_dir.
    destruct (os_path_join_sep (render_dir self)) as [s Hs].
    rewrite (Hs "_normalized"), (Hs (clip_name i)) by done.
    destruct (os_path_join_sep (render_dir self +:+ s +:+ "_normalized")) as [s1 Hs1].
    split; [|split].
    - intros idx. rewrite Hs1 by done. rewrite !append_assoc.
      intros H. do 2 apply append_inv_head in H. by rewrite !append_cons in H.
    - rewrite Hs1 by done. rewrite !append_assoc.
      intros H. do 2 apply append_inv_head in H. by rewrite !append_cons in H.
    - rewrite !append_assoc, !prefix_app_cancel. done. }
  destruct Hinside as (Hnorm & Hlist & Hdir).
  split; [done|]. split; [done|]. split; [done|]. split.
  - subst p. unfold get_clip_path, merge_output, final_video, final_dir, chapter_video,
      chapter_shorts_video, clips, clips_shorts.
    destruct (pm self) as [l|c]; [|destruct (shorts_mode self)]; simpl root.
    + apply sibling_paths_ne; try done; intros s t; by rewrite !append_cons.
    + destruct (os_path_join_sep (cpm_root c)) as [s Hs].
      rewrite (Hs "clips_shorts"), (Hs "chapter_shorts.mp4") by done.
      destruct (os_path_join_sep (cpm_root c +:+ s +:+ "clips_shorts")) as [s1 Hs1].
      rewrite Hs1 by done. rewrite !append_assoc.
      intros H. do 2 apply append_inv_head in H. by rewrite !append_cons in H.
    + destruct (os_path_join_sep (cpm_root c)) as [s Hs].
      rewrite (Hs "clips"), (Hs "chapter.mp4") by done.
      destruct (os_path_join_sep (cpm_root c +:+ s +:+ "clips")) as [s1 Hs1].
      rewrite Hs1 by done. rewrite !append_assoc.
      intros H. do 2 apply append_inv_head in H. by rewrite !append_cons in H.
  - subst p. destruct (merge_output_mp4 self) as [v ->].
    destruct (get_clip_path_shape (pm self) i (shorts_mode self)) as (u & d & -> & Hd).
    by apply not_eq_sym, (replace_suffix_ne "_ct" (Ascii.ascii_of_nat 97)).
Qed.

Section MergeOutcome.

Context (engine : Cmd -> gmap string file -> EngineResult).

(** [merge_clips] never modifies or removes a rendered clip: whatever the
    outcome, the clip path of every scene id holds after the merge what
    it held before, so a merge can be run again on the same clips. *)
Theorem merge_keeps_rendered_clips (self : Orchestrator) (st : State) (i : Z) :
  fs (merge_clips engine self st).2 !! get_clip_path (pm self) i (shorts_mode self)
  = fs st !! get_clip_path (pm self) i (shorts_mode self).
Proof.
  destruct (clip_outside_merge self i) as (Hnorm & Hlist & Hdir & Hout & Hcta).
  by apply merge_clips_frame.
Qed.

Lemma cta_keeps_video (video_path : string) (is_shorts : bool) (st : State) :
  str_replace ".mp4" "_cta.mp4" video_path <> video_path ->
  is_Some (fs st !! video_path) ->
  is_Some (fs (_apply_universal_cta engine video_path is_shorts st).2 !! video_path).
Proof.
  intros Hne Hv. unfold _apply_universal_cta.
  destruct (negb (exists_ cta_path st)); [done|].
  set (c := CmdCtaOverlay _ _ _ _ _ _ _).
  pose proof (run_cmd_frame engine c st video_path (not_eq_sym Hne)) as H1.
  destruct (run_cmd engine c st) as [ok st1]. cbn [snd] in H1. rewrite <- H1 in Hv.
  destruct ok.
  - unfold shutil_move. destruct (fs st1 !! str_replace _ _ _); simpl; [|done].
    rewrite lookup_insert_eq. eauto.
  - destruct (exists_ _ st1); simpl; [|done]. by rewrite lookup_delete_ne.
Qed.

(** When [merge_clips] returns an output path and the engine's successful
    runs leave a file, the output file is on disk. *)
Theorem merge_output_is_on_disk (self : Orchestrator) (st st' : State) (output : string) :
  engine_writes_over engine 0 ->
  merge_clips engine self st = (Some output, st') ->
  is_Some (fs st' !! output).
Proof.
  intros Heng. unfold merge_clips.
  destruct (clip_ids self st) as [|i ids]; [done|].
  destruct (normalize_loop engine self _ _ st) as [ok st1].
  destruct ok; simpl negb; cbv iota; [|done].
  set (norm_dir := os_path_join (render_dir self) "_normalized").
  set (st2 := write_lines _ _ st1). clearbody st2.
  unfold run_cmd. set (c := CmdConcat _ _). set (r := engine c (fs st2)).
  destruct (exit_ok r) eqn:Hr; [|done].
  destruct (Heng c (fs st2) Hr) as (f & Hf & _). fold r in Hf. rewrite Hf.
  set (st3 := {| fs := _; log := _ |}).
  assert (H4 : is_Some (fs (shutil_rmtree norm_dir st3) !! merge_output self)).
  { rewrite shutil_rmtree_frame by apply merge_output_outside_normalized.
    subst st3. simpl. rewrite lookup_insert_eq. eauto. }
  destruct (wants_cta self).
  - pose proof (cta_keeps_video (merge_output self) (shorts_mode self) _
                  (merge_output_cta_distinct self) H4) as H5.
    destruct (cta_log engine (merge_output self) (shorts_mode self)
                (shutil_rmtree norm_dir st3)) as (_ & _ & _ & Hout).
    destruct (_apply_universal_cta _ _ _ _) as [out st5]. cbn [fst snd] in H5, Hout.
    intros [= <- <-]. by rewrite Hout.
  - by intros [= <- <-].
Qed.

End MergeOutcome.

Lemma engine_ok_leaves_a_file : engine_writes_over engine_ok 0.
Proof. intros c m _. exists (media 2097152 5). split; [reflexivity|reflexivity]. Defined.

Lemma merge_output_is_on_disk_witness :
  is_Some (fs (merge_clips engine_ok giant both_clips_disk).2 !! merge_output giant).
Proof.
  exact (merge_output_is_on_disk engine_ok giant both_clips_disk
           (merge_clips engine_ok giant both_clips_disk).2 (merge_output giant)
           engine_ok_leaves_a_file eq_refl).
Defined.

(** *** Merging and the chapter queries *)

Lemma mark_merged_cases (ch : ChapterEntry) :
  (ce_status ch = STATUS_RENDERED /\ mark_merged ch = with_status ch STATUS_MERGED) \/
  (ce_status ch <> STATUS_RENDERED /\ mark_merged ch = ch).
Proof.
  unfold mark_merged. destruct (String.eqb (ce_status ch) STATUS_RENDERED) eqn:Hr.
  - left. by apply String.eqb_eq in Hr.
  - right. by apply String.eqb_neq in Hr.
Qed.

Lemma next_pending_loop_mark_merged (chs : list ChapterEntry) (intro : option ChapterEntry) :
  next_pending_loop (map mark_merged chs) intro = next_pending_loop chs intro.
Proof.
  revert intro. induction chs as [|ch chs IH]; intros intro; [done|].
  cbn [map next_pending_loop].
  destruct (mark_merged_cases ch) as [[Hr ->]|[_ ->]].
  - simpl. rewrite Hr. simpl. apply IH.
  - by rewrite !IH.
Qed.

Lemma rendered_mark_merged (chs : list ChapterEntry) :
  let is_rendered ch :=
    (String.eqb (ce_status ch) STATUS_RENDERED || String.eqb (ce_status ch) STATUS_MERGED)%bool in
  map ce_index (List.filter is_rendered (map mark_merged chs))
  = map ce_index (List.filter is_rendered chs).
Proof.
  intros is_rendered. induction chs as [|ch chs IH]; [done|].
  cbn [map List.filter].
  destruct (mark_merged_cases ch) as [[Hr ->]|[_ ->]].
  - assert (is_rendered (with_status ch STATUS_MERGED) = true) as -> by done.
    assert (is_rendered ch = true) as -> by (unfold is_rendered; by rewrite Hr).
    simpl. by rewrite IH.
  - destruct (is_rendered ch); simpl; by rewrite IH.
Qed.

Section ProjectMergeQueries.

Context (engine : Cmd -> gmap string file -> EngineResult).

(** Merging the project changes neither the chapter that is next in the
    production order nor the chapters that count as rendered: whatever
    [merge_all_chapters] returns, [get_next_pending] answers as before and
    [get_rendered_chapters] lists the same chapter indices. *)
Theorem merge_all_chapters_keeps_queries (p : ProjectManager) (st : State) :
  let p' := (merge_all_chapters engine p st).1.2 in
  get_next_pending p' = get_next_pending p /\
  map ce_index (get_rendered_chapters p') = map ce_index (get_rendered_chapters p).
Proof.
  intros p'. subst p'. unfold merge_all_chapters.
  destruct (chapter_videos p st) as [|v vs]; [done|].
  destruct (run_cmd engine _ _) as [ok st2]. destruct ok; simpl; [|done].
  unfold get_next_pending, get_rendered_chapters. simpl. split.
  - apply next_pending_loop_mark_merged.
  - apply rendered_mark_merged.
Qed.

End ProjectMergeQueries.
